(** * A shallow embedding of DnaChisel's objective evaluation and localization

    Sources embedded:
    - src/dnachisel/objectives/objectives.py (AvoidBlastMatches,
      AvoidIDTHairpins, AvoidNonuniqueKmers / AvoidNonuniqueSegments,
      AvoidPattern, CodonOptimize, DoNotModify, EnforceGCContent,
      EnforcePattern, EnforceRegionsCompatibility, EnforceTranslation,
      MinimizeDifferences, SequenceLengthBounds);
    - src/dnachisel/builtin_specifications/EnforceMeltingTemperature.py;
    - src/dnachisel/specifications/builtin_specifications/CodonOptimize.py.

    Python values: integers are [Z]; Python/numpy floats are [Q]; DNA
    strings are [list ascii]; a Python dict whose iteration order matters is
    an association list in insertion order; raised exceptions are the [Err]
    branch of [result]. External primitives (GC content, BLAST, translation,
    pattern matching, Tm prediction) are Section variables, so the theorems
    hold for any implementation of them. *)

From Stdlib Require Import ZArith QArith List Ascii String Bool Lia.
From Stdlib Require Import Sorted Permutation Lqa.
Import ListNotations.
Open Scope Z_scope.

(** ** Python runtime helpers *)

Inductive py_error :=
| ValueError
| TypeError
| KeyError
| AttributeError
| RangeError.

Inductive result (A : Type) :=
| Ok (a : A)
| Err (e : py_error).
Arguments Ok {A} a.
Arguments Err {A} e.

Definition bind {A B} (r : result A) (f : A -> result B) : result B :=
  match r with Ok a => f a | Err e => Err e end.

Notation "x <- r ;; k" := (bind r (fun x => k))
  (at level 61, r at next level, right associativity).

Definition dna := list ascii.

Definition zlen {A} (l : list A) : Z := Z.of_nat (List.length l).

(** Python's normalisation of a slice bound [i] for a sequence of length [n]. *)
Definition py_index (n i : Z) : Z :=
  if i <? 0 then Z.max 0 (i + n) else Z.min i n.

(** [l[a:b]] *)
Definition py_slice {A} (l : list A) (a b : Z) : list A :=
  let n := zlen l in
  let a' := py_index n a in
  let b' := py_index n b in
  firstn (Z.to_nat (b' - a')) (skipn (Z.to_nat a') l).

(** [range(n)] *)
Definition py_range (n : Z) : list Z :=
  map Z.of_nat (seq 0 (Z.to_nat n)).

(** Python's ordering on pairs of integers (lexicographic). *)
Definition pair_leb (p q : Z * Z) : bool :=
  (fst p <? fst q) || ((fst p =? fst q) && (snd p <=? snd q)).

Fixpoint insert_sorted (p : Z * Z) (l : list (Z * Z)) : list (Z * Z) :=
  match l with
  | [] => [p]
  | q :: r => if pair_leb p q then p :: q :: r else q :: insert_sorted p r
  end.

(** [sorted(l)] on a list of integer pairs. *)
Fixpoint py_sorted (l : list (Z * Z)) : list (Z * Z) :=
  match l with
  | [] => []
  | p :: r => insert_sorted p (py_sorted r)
  end.

(** [sorted((a, b))] on a pair. *)
Definition sort_pair (p : Z * Z) : Z * Z :=
  if snd p <? fst p then (snd p, fst p) else p.

Definition ascii_list_eqb (a b : dna) : bool :=
  if list_eq_dec ascii_dec a b then true else false.

(** Modelled from the spec: [biotools.reverse_complement] (not in src/):
    the complement of each base (A-T, C-G), read backwards. *)
Definition complement (c : ascii) : ascii :=
  match c with
  | "A"%char => "T"%char
  | "T"%char => "A"%char
  | "C"%char => "G"%char
  | "G"%char => "C"%char
  | _ => c
  end.

Definition reverse_complement (s : dna) : dna := rev (map complement s).

(** Modelled from the spec: [biotools.windows_overlap] (not in src/), the
    intersection of two windows, or [None] when they share no base (two
    windows touching at a single point do not overlap). *)
Definition windows_overlap (w1 w2 : Z * Z) : option (Z * Z) :=
  let s := Z.max (fst w1) (fst w2) in
  let e := Z.min (snd w1) (snd w2) in
  if s <? e then Some (s, e) else None.

(** The value object [ObjectiveEvaluation(objective, canvas, score,
    windows, message)]; the message is not modelled and a missing
    [windows] argument (Python [None]) is the empty list. *)
Record evaluation := mk_eval {
  score : Q;
  windows : list (Z * Z)
}.

Record canvas := mk_canvas { sequence : dna }.

Definition Qz (z : Z) : Q := inject_Z z.

(** [np.maximum(a, b)] and [abs] on floats. *)
Definition qmax (a b : Q) : Q := if Qle_bool a b then b else a.
Definition qabs (a : Q) : Q := if Qle_bool 0 a then a else (- a)%Q.

(** [sum] of a list of floats. *)
Definition qsum (l : list Q) : Q := fold_right Qplus 0%Q l.

(** [d[key]] on a dict given as an association list. *)
Fixpoint dict_get {V} (d : list (dna * V)) (key : dna) : result V :=
  match d with
  | [] => Err KeyError
  | (k, v) :: r => if ascii_list_eqb key k then Ok v else dict_get r key
  end.

Fixpoint str_dict_get {V} (d : list (string * V)) (key : string) : result V :=
  match d with
  | [] => Err KeyError
  | (k, v) :: r => if String.eqb key k then Ok v else str_dict_get r key
  end.

(** Modelled from the spec: [Location] (Location.py, not in src/), a
    half-open interval [(start, end)] with an optional strand. *)
Record location := mk_location {
  lstart : Z;
  lend : Z;
  strand : option Z
}.

(** Modelled from the spec: [Location.extract_sequence]: the slice
    [start:end], reverse-complemented on strand -1; a [RangeError] when
    [start > end] or a bound lies outside [0, len(sequence)]. *)
Definition extract_sequence (l : location) (s : dna) : result dna :=
  if (lend l <? lstart l) || (lstart l <? 0) || (zlen s <? lend l)
  then Err RangeError
  else
    let sub := py_slice s (lstart l) (lend l) in
    match strand l with
    | Some (-1) => Ok (reverse_complement sub)
    | _ => Ok sub
    end.

(** ** AvoidNonuniqueKmers / AvoidNonuniqueSegments (the two [evaluate]
    methods are the same code) *)
Module Nonunique.

Record t := mk {
  length : Z;
  window : option (Z * Z);
  include_reverse_complement : bool
}.

(** [kmers_locations]: a [defaultdict(list)] in insertion order. *)
Definition kmer_table := list (dna * list (Z * Z)).

(** [kmers_locations[key].append(pos)] *)
Fixpoint table_append (key : dna) (pos : Z * Z) (tb : kmer_table)
  : kmer_table :=
  match tb with
  | [] => [(key, [pos])]
  | (k, ps) :: r =>
      if ascii_list_eqb key k then (k, ps ++ [pos]) :: r
      else (k, ps) :: table_append key pos r
  end.

(** First loop: [for i in range(len(sequence) - self.length)]. *)
Definition record_forward (L : Z) (sequence : dna) (tb : kmer_table)
  : kmer_table :=
  fold_left (fun tb i => table_append (py_slice sequence i (i + L)) (i, i + L) tb)
    (py_range (zlen sequence - L)) tb.

(** Second loop, over the reverse complement, positions mirrored. *)
Definition record_reverse (L : Z) (sequence rev_complement : dna)
  (tb : kmer_table) : kmer_table :=
  fold_left (fun tb i =>
      table_append (py_slice rev_complement i (i + L))
        (zlen sequence - (i + L), zlen sequence - i) tb)
    (py_range (zlen sequence - L)) tb.

Definition kmers_locations (o : t) (sequence : dna) : kmer_table :=
  let tb := record_forward (length o) sequence [] in
  if include_reverse_complement o
  then record_reverse (length o) sequence (reverse_complement sequence) tb
  else tb.

(** [min(positions_list, key=lambda p: p[0])]: the first element with the
    smallest start. *)
Fixpoint min_by_start (best : Z * Z) (l : list (Z * Z)) : Z * Z :=
  match l with
  | [] => best
  | q :: r => if fst q <? fst best then min_by_start q r else min_by_start best r
  end.

Definition first_occurrence (ps : list (Z * Z)) : Z * Z :=
  match ps with [] => (0, 0) | p :: r => min_by_start p r end.

Definition repeated (entry : dna * list (Z * Z)) : bool :=
  1 <? zlen (snd entry).

Definition repeated_keys (tb : kmer_table) : kmer_table :=
  filter repeated tb.

(** [canvas.sequence[wstart:wend]] *)
Definition window_sequence (o : t) (c : canvas) : dna :=
  let '(wstart, wend) :=
    match window o with None => (0, zlen (sequence c)) | Some w => w end in
  py_slice (sequence c) wstart wend.

Definition evaluate (o : t) (c : canvas) : evaluation :=
  let tb := kmers_locations o (window_sequence o c) in
  let ws := py_sorted
              (map (fun e => first_occurrence (snd e)) (repeated_keys tb)) in
  match ws with
  | [] => mk_eval 1%Q []
  | _ => mk_eval (- Qz (zlen ws))%Q ws
  end.

End Nonunique.

(** ** EnforceGCContent: breach signal and breach-run merging *)
Module GC.

Record t := mk {
  gc_objective : option Q;
  gc_min : Q;
  gc_max : Q;
  gc_window : option Z;
  window : option (Z * Z);
  boost : Q
}.

(** [EnforceGCContent.__init__] *)
Definition init (gc_min gc_max : Q) (gc_objective : option Q)
  (gc_window : option Z) (window : option (Z * Z)) (boost : Q) : t :=
  match gc_objective with
  | Some g => mk gc_objective g g gc_window window boost
  | None => mk gc_objective gc_min gc_max gc_window window boost
  end.

(** [breaches = np.maximum(0, gc_min - gc) + np.maximum(0, gc - gc_max)] *)
Definition breach (gc_min gc_max v : Q) : Q :=
  (qmax 0 (gc_min - v) + qmax 0 (v - gc_max))%Q.

(** [(breaches > 0).nonzero()[0]], indices counted from [i]. *)
Fixpoint breaches_starts_from (i : Z) (bs : list Q) : list Z :=
  match bs with
  | [] => []
  | b :: r =>
      if negb (Qle_bool b 0) then i :: breaches_starts_from (i + 1) r
      else breaches_starts_from (i + 1) r
  end.

Definition breaches_starts (bs : list Q) : list Z := breaches_starts_from 0 bs.

(** The [for i in breaches_starts[1:]] loop, with its state
    [(current_start, last_end)], followed by the final append. *)
Fixpoint merge_loop (wstart w current_start last_end : Z) (rest : list Z)
  : list (Z * Z) :=
  match rest with
  | [] => [(wstart + current_start, wstart + last_end)]
  | i :: r =>
      if last_end + w <? i
      then (wstart + current_start, wstart + last_end)
             :: merge_loop wstart w i (i + w) r
      else merge_loop wstart w current_start (i + w) r
  end.

(** Lines 511-534 of [EnforceGCContent.evaluate]. With no [gc_window] and
    two breach starts or more, [current_start + None] raises. *)
Definition breaches_windows (wstart wend : Z) (gc_window : option Z)
  (starts : list Z) : result (list (Z * Z)) :=
  match starts with
  | [] => Ok []
  | [start] =>
      match gc_window with
      | Some w => Ok [(start, start + w)]
      | None => Ok [(wstart, wend)]
      end
  | current_start :: rest =>
      match gc_window with
      | Some w => Ok (merge_loop wstart w current_start (current_start + w) rest)
      | None => Err TypeError
      end
  end.

Section Evaluate.
(** [biotools.gc_content(sequence, window_size)], not in src/. *)
Variable gc_content : dna -> option Z -> list Q.

Definition eval_window (o : t) (c : canvas) : Z * Z :=
  match window o with None => (0, zlen (sequence c)) | Some w => w end.

(** [gc = gc_content(sequence[wstart:wend], self.gc_window)] *)
Definition measured (o : t) (c : canvas) : list Q :=
  let '(wstart, wend) := eval_window o c in
  gc_content (py_slice (sequence c) wstart wend) (gc_window o).

Definition breaches (o : t) (c : canvas) : list Q :=
  map (breach (gc_min o) (gc_max o)) (measured o c).

Definition evaluate (o : t) (c : canvas) : result evaluation :=
  let '(wstart, wend) := eval_window o c in
  let bs := breaches o c in
  let score := (- qsum bs)%Q in
  ws <- breaches_windows wstart wend (gc_window o) (breaches_starts bs) ;;
  Ok (mk_eval score ws).
End Evaluate.

(** [copy_with_changes(window=new_window)] *)
Definition with_window (o : t) (w : option (Z * Z)) : t :=
  mk (gc_objective o) (gc_min o) (gc_max o) (gc_window o) w (boost o).

End GC.

(** ** AvoidBlastMatches *)
Module Blast.

Record t := mk {
  blast_db : string;
  word_size : Z;
  perc_identity : Z;
  num_alignments : Z;
  num_threads : Z;
  min_align_length : Z;
  window : option (Z * Z)
}.

Section Evaluate.
(** [biotools.blast_sequence] (not in src/): the [(query_start, query_end)]
    of every hit of every alignment of the BLAST record, for the sequence
    and the arguments [blast_db, word_size, perc_identity, num_alignments,
    num_threads]. *)
Variable blast_sequence : dna -> string -> Z -> Z -> Z -> Z -> list (Z * Z).

Definition evaluate (o : t) (c : canvas) : evaluation :=
  let '(wstart, wend) :=
    match window o with None => (0, zlen (sequence c)) | Some w => w end in
  let s := py_slice (sequence c) wstart wend in
  let hits := blast_sequence s (blast_db o) (word_size o) (perc_identity o)
                (num_alignments o) (num_threads o) in
  let ws := py_sorted
              (map (fun h => sort_pair (fst h + wstart, snd h + wstart))
                 (filter (fun h => min_align_length o <=? Z.abs (snd h - fst h))
                    hits)) in
  match ws with
  | [] => mk_eval 1%Q []
  | _ => mk_eval (- Qz (zlen ws))%Q ws
  end.
End Evaluate.

Definition with_window (o : t) (w : option (Z * Z)) : t :=
  mk (blast_db o) (word_size o) (perc_identity o) (num_alignments o)
    (num_threads o) (min_align_length o) w.

End Blast.

(** ** EnforceTranslation *)
Module Translation.

(** The constructor rejects [translation=None] ([len(None)]), so the
    [initialize_translation_from_problem] flag is always false and is not
    kept. *)
Record t := mk {
  window : Z * Z;
  strand : Z;
  translation : dna;
  boost : Q
}.

(** [EnforceTranslation.__init__] *)
Definition init (window : Z * Z) (strand : Z) (translation : option dna)
  (boost : Q) : result t :=
  match translation with
  | None => Err TypeError
  | Some tr =>
      let window_size := snd window - fst window in
      if negb (window_size =? 3 * zlen tr) then Err ValueError
      else Ok (mk window strand tr boost)
  end.

Section Evaluate.
(** [biotools.translate] (not in src/). *)
Variable translate : dna -> dna.

Definition evaluate (o : t) (c : canvas) : evaluation :=
  let '(start, end_) := window o in
  let sub := py_slice (sequence c) start end_ in
  let sub := if strand o =? -1 then reverse_complement sub else sub in
  let success := if ascii_list_eqb (translate sub) (translation o)
                 then 1%Q else (-1)%Q in
  mk_eval success [].
End Evaluate.

(** The overlapping branch of [EnforceTranslation.localized]; [int(x / 3)]
    truncates towards zero. *)
Definition localize_on_overlap (o : t) (overlap : Z * Z) : result t :=
  let '(o_start, o_end) := overlap in
  let '(w_start, w_end) := window o in
  let start_codon := Z.quot (o_start - w_start) 3 in
  let end_codon := Z.quot (o_end - w_start) 3 in
  let new_window := (w_start + 3 * start_codon,
                     Z.min w_end (w_start + 3 * (end_codon + 1))) in
  let new_translation := py_slice (translation o) start_codon (end_codon + 1) in
  init new_window (strand o) (Some new_translation) (boost o).

End Translation.

(** ** EnforceRegionsCompatibility *)
Module RC.

Record t := mk {
  regions : list (Z * Z);
  compatibility_condition : Z * Z -> Z * Z -> canvas -> bool;
  boost : Q
}.

Definition pair_eqb (p q : Z * Z) : bool := (fst p =? fst q) && (snd p =? snd q).

(** [itertools.combinations(l, 2)] *)
Fixpoint combinations2 (l : list (Z * Z)) : list ((Z * Z) * (Z * Z)) :=
  match l with
  | [] => []
  | x :: r => map (fun y => (x, y)) r ++ combinations2 r
  end.

(** [list(set(l))]; Python's set order is unspecified, it is taken here as
    the order of first occurrence. *)
Definition dedup (l : list (Z * Z)) : list (Z * Z) :=
  fold_left (fun acc x => if existsb (pair_eqb x) acc then acc else acc ++ [x])
    l [].

Definition count (l : list (Z * Z)) (x : Z * Z) : Z :=
  zlen (filter (pair_eqb x) l).

Fixpoint insert_by_key (key : Z * Z -> Z) (x : Z * Z) (l : list (Z * Z))
  : list (Z * Z) :=
  match l with
  | [] => [x]
  | y :: r => if key x <? key y then x :: y :: r else y :: insert_by_key key x r
  end.

(** [sorted(l, key=key)], a stable sort. *)
Definition sorted_by_key (key : Z * Z -> Z) (l : list (Z * Z)) : list (Z * Z) :=
  fold_left (fun acc x => insert_by_key key x acc) l [].

Definition evaluate (o : t) (c : canvas) : evaluation :=
  let incompatible_regions_pairs :=
    filter (fun p => negb (compatibility_condition o (fst p) (snd p) c))
      (combinations2 (regions o)) in
  let all_regions := flat_map (fun p => [fst p; snd p]) incompatible_regions_pairs in
  let ws := sorted_by_key (count all_regions) (dedup all_regions) in
  mk_eval (- Qz (zlen incompatible_regions_pairs))%Q ws.

(** [included_regions] of [localized]. *)
Definition included_regions (o : t) (w : Z * Z) : list (Z * Z) :=
  let '(wstart, wend) := w in
  filter (fun r => (wstart <=? fst r) && (fst r <=? snd r) && (snd r <=? wend))
    (regions o).

(** The [evaluate] closure built by [localized]. *)
Definition evaluate_localized (o : t) (included : list (Z * Z)) (c : canvas)
  : evaluation :=
  let incompatible_regions :=
    flat_map (fun region =>
      flat_map (fun included_region =>
        if negb (pair_eqb region included_region) &&
           negb (compatibility_condition o included_region region c)
        then [region] else []) included)
      (regions o) in
  mk_eval (- Qz (zlen incompatible_regions))%Q [].

End RC.

(** ** The objectives with a [localized] method, and [VoidObjective] *)
Inductive objective :=
| GCContent (p : GC.t)
| AvoidBlast (p : Blast.t)
| EnforceTranslation (p : Translation.t)
| RegionsCompatibility (p : RC.t)
| LocalizedObjective (p : RC.t) (included : list (Z * Z))
| VoidObjective (parent : objective).

Section Objectives.
Variable gc_content : dna -> option Z -> list Q.
Variable blast_sequence : dna -> string -> Z -> Z -> Z -> Z -> list (Z * Z).
Variable translate : dna -> dna.
(** [Objective.best_possible_score], the base-class default (Objective.py
    is not in src/). *)
Variable base_best_possible_score : Q.

Definition best_possible_score (o : objective) : Q :=
  match o with
  | EnforceTranslation _ => 1%Q
  | _ => base_best_possible_score
  end.

(** Modelled from the spec: the evaluation of [VoidObjective] (Objective.py,
    not in src/) has the parent's best possible score and no window. *)
Definition evaluate_void (parent : objective) : evaluation :=
  mk_eval (best_possible_score parent) [].

Definition evaluate (o : objective) (c : canvas) : result evaluation :=
  match o with
  | GCContent p => GC.evaluate gc_content p c
  | AvoidBlast p => Ok (Blast.evaluate blast_sequence p c)
  | EnforceTranslation p => Ok (Translation.evaluate translate p c)
  | RegionsCompatibility p => Ok (RC.evaluate p c)
  | LocalizedObjective p included => Ok (RC.evaluate_localized p included c)
  | VoidObjective parent => Ok (evaluate_void parent)
  end.
End Objectives.

(** [localized(window)] of the four objectives that define it (the other
    constructors are not localized in src/ and are returned as they are). *)
Definition localized (o : objective) (w : Z * Z) : result objective :=
  match o with
  | GCContent p =>
      match GC.window p with
      | Some sw =>
          match windows_overlap sw w with
          | None => Ok (VoidObjective o)
          | Some nw => Ok (GCContent (GC.with_window p (Some nw)))
          end
      | None =>
          let '(start, end_) := w in
          match GC.gc_window p with
          | Some g => Ok (GCContent (GC.with_window p
                                       (Some (Z.max 0 (start - g), end_ + g))))
          | None => Ok (GCContent (GC.with_window p None))
          end
      end
  | AvoidBlast p =>
      match Blast.window p with
      | Some sw =>
          match windows_overlap sw w with
          | None => Ok (VoidObjective o)
          | Some nw => Ok (AvoidBlast (Blast.with_window p (Some nw)))
          end
      | None =>
          let '(start, end_) := w in
          let radius := Blast.min_align_length p in
          Ok (AvoidBlast (Blast.with_window p
                            (Some (Z.max 0 (start - radius), end_ + radius))))
      end
  | EnforceTranslation p =>
      match windows_overlap w (Translation.window p) with
      | None => Ok (VoidObjective o)
      | Some ov =>
          p' <- Translation.localize_on_overlap p ov ;;
          Ok (EnforceTranslation p')
      end
  | RegionsCompatibility p => Ok (LocalizedObjective p (RC.included_regions p w))
  | _ => Ok o
  end.

(** ** EnforcePattern *)
Module Pattern.

(** [pattern.find_matches(sequence, window)] is the pattern's own matcher,
    an external primitive; it is kept as a field of the objective. *)
Record t := mk {
  find_matches : dna -> Z * Z -> list (Z * Z);
  window : option (Z * Z);
  occurences : Z;
  boost : Q
}.

Definition evaluate (o : t) (c : canvas) : evaluation :=
  let w := match window o with None => (0, zlen (sequence c)) | Some w => w end in
  let ws := find_matches o (sequence c) w in
  let score := (- Qz (Z.abs (zlen ws - occurences o)))%Q in
  (* [windows=None if window is None else [window]]; [window] was defaulted *)
  mk_eval score [w].

End Pattern.

(** ** EnforceMeltingTemperature *)
Module EMT.

Record t := mk {
  mini : Q;
  maxi : Q;
  target : Q;
  loc : option location;
  boost : Q
}.

(** [EnforceMeltingTemperature.__init__]: a given target replaces both
    bounds; otherwise [0.5 * (mini + maxi)] raises on a missing bound. *)
Definition init (mini maxi target : option Q) (loc : option location)
  (boost : Q) : result t :=
  match target with
  | Some tg => Ok (mk tg tg tg loc boost)
  | None =>
      match mini, maxi with
      | Some lo, Some hi => Ok (mk lo hi ((1 # 2) * (lo + hi))%Q loc boost)
      | _, _ => Err TypeError
      end
  end.

Section Evaluate.
(** [primer3.calcTm] or [Bio.SeqUtils.MeltingTemp.Tm_NN]. *)
Variable predictor : dna -> Q.

Definition evaluate (o : t) (c : canvas) : result evaluation :=
  match loc o with
  | None => Err AttributeError
  | Some l =>
      s <- extract_sequence l (sequence c) ;;
      let tm := predictor s in
      let score := ((1 # 2) * (maxi o - mini o) - qabs (tm - target o))%Q in
      Ok (mk_eval score [(lstart l, lend l)])
  end.
End Evaluate.

End EMT.

(** ** CodonOptimize, objectives/objectives.py *)
Module CodonObj.

Definition usage_table := list (dna * Q).

Record t := mk {
  organism : option string;
  window : option (Z * Z);
  strand : Z;
  codon_usage_table : usage_table;
  boost : Q
}.

Section Codon.
(** [biotables.CODON_USAGE] (not in src/). *)
Variable CODON_USAGE : list (string * usage_table).

(** [CodonOptimize.__init__] *)
Definition init (organism : option string) (window : option (Z * Z))
  (strand : Z) (codon_usage_table : option usage_table) (boost : Q)
  : result t :=
  tb <- match organism with
        | Some org => tb <- str_dict_get CODON_USAGE org ;; Ok (Some tb)
        | None => Ok codon_usage_table
        end ;;
  match tb with
  | None => Err ValueError
  | Some tb => Ok (mk organism window strand tb boost)
  end.
End Codon.

(** [sum([table[subsequence[3*i:3*(i+1)]] for i in range(length / 3)])],
    evaluated left to right; [length / 3] is the integer division of the
    Python 2 this module is written for. *)
Fixpoint sum_usage (tb : usage_table) (sub : dna) (is : list Z) : result Q :=
  match is with
  | [] => Ok 0%Q
  | i :: r =>
      f <- dict_get tb (py_slice sub (3 * i) (3 * (i + 1))) ;;
      rest <- sum_usage tb sub r ;;
      Ok (f + rest)%Q
  end.

Definition window_of (o : t) (c : canvas) : Z * Z :=
  match window o with None => (0, zlen (sequence c)) | Some w => w end.

(** The window's subsequence, reverse-complemented on strand -1. *)
Definition subsequence (o : t) (c : canvas) : dna :=
  let '(start, end_) := window_of o c in
  let sub := py_slice (sequence c) start end_ in
  if strand o =? -1 then reverse_complement sub else sub.

Definition evaluate (o : t) (c : canvas) : result evaluation :=
  let sub := subsequence o c in
  let length := zlen sub in
  if negb (length mod 3 =? 0) then Err ValueError
  else
    score <- sum_usage (codon_usage_table o) sub (py_range (length / 3)) ;;
    Ok (mk_eval score [window_of o c]).

End CodonObj.

(** ** CodonOptimize, specifications/builtin_specifications/CodonOptimize.py *)
Module CodonSpec.

Record t := mk {
  species : option string;
  loc : option location;
  codon_usage_table : CodonObj.usage_table;
  boost : Q
}.

Section Codon.
(** [CODON_USAGE_TABLES] and [CODONS_TRANSLATIONS] (not in src/). *)
Variable CODON_USAGE_TABLES : list (string * CodonObj.usage_table).
Variable CODONS_TRANSLATIONS : list (dna * dna).

(** [CodonOptimize.__init__] *)
Definition init (species : option string) (loc : option location)
  (codon_usage_table : option CodonObj.usage_table) (boost : Q) : result t :=
  tb <- match species with
        | Some sp => tb <- str_dict_get CODON_USAGE_TABLES sp ;; Ok (Some tb)
        | None => Ok codon_usage_table
        end ;;
  match tb with
  | None => Err ValueError
  | Some tb => Ok (mk species loc tb boost)
  end.

(** The [(current, optimal)] usage pairs of the list comprehension. *)
Fixpoint usages (tb : CodonObj.usage_table) (codons : list dna)
  : result (list (Q * Q)) :=
  match codons with
  | [] => Ok []
  | codon :: r =>
      cur <- dict_get tb codon ;;
      aa <- dict_get CODONS_TRANSLATIONS codon ;;
      opt <- dict_get tb aa ;;
      rest <- usages tb r ;;
      Ok ((cur, opt) :: rest)
  end.

(** [CodonOptimize.evaluate]. After the usages are computed,
    the empty [zip] cannot be unpacked into two arrays on an empty window;
    otherwise [3*np.nonzero(...)] is a tuple, and the next statement reads
    [self.location.strand] ([None] has no attribute) and then subtracts or
    adds an integer to that tuple, which raises. *)
Definition eval_location (o : t) (c : canvas) : location :=
  match loc o with
  | Some l => l
  | None => mk_location 0 (zlen (sequence c)) None
  end.

Definition evaluate (o : t) (c : canvas) : result evaluation :=
  sub <- extract_sequence (eval_location o c) (sequence c) ;;
  let length := zlen sub in
  if negb (length mod 3 =? 0) then Err ValueError
  else
    let codons := map (fun i => py_slice sub (3 * i) (3 * (i + 1)))
                    (py_range (Z.quot length 3)) in
    us <- usages (codon_usage_table o) codons ;;
    match us with
    | [] => Err ValueError
    | _ =>
        match loc o with
        | None => Err AttributeError
        | Some _ => Err TypeError
        end
    end.
End Codon.

End CodonSpec.

(** The explicit window of the objectives that carry one. *)
Definition explicit_window (o : objective) : option (Z * Z) :=
  match o with
  | GCContent p => GC.window p
  | AvoidBlast p => Blast.window p
  | EnforceTranslation p => Some (Translation.window p)
  | _ => None
  end.

(** A run of breach starts after [prev]: each start is within two sliding
    windows of the previous one, so the loop of [EnforceGCContent.evaluate]
    extends the current run at every step. *)
Fixpoint run_chain (w prev : Z) (l : list Z) : Prop :=
  match l with
  | [] => True
  | x :: r => x <= prev + 2 * w /\ run_chain w x r
  end.

(** ** More objectives of objectives.py *)

(** [word in rest] on strings: [word] occurs as a substring of [rest]. *)
Fixpoint is_prefix (w s : dna) : bool :=
  match w, s with
  | [], _ => true
  | a :: w', b :: s' => Ascii.eqb a b && is_prefix w' s'
  | _ :: _, [] => false
  end.

Fixpoint py_contains (w s : dna) : bool :=
  is_prefix w s || match s with [] => false | _ :: s' => py_contains w s' end.

(** *** AvoidIDTHairpins *)
Module Hairpins.

Record t := mk {
  stem_size : Z;
  hairpin_window : Z;
  boost : Q
}.

(** The body of the [for i in range(len(sequence) - self.hairpin_window)]
    loop: the window appended at step [i], if any. *)
Definition step (o : t) (sequence reverse : dna) (i : Z) : list (Z * Z) :=
  let word := py_slice sequence i (i + stem_size o) in
  let rest := py_slice reverse (- (i + hairpin_window o)) (- (i + stem_size o)) in
  if py_contains word rest then [(i, i + hairpin_window o)] else [].

Definition evaluate (o : t) (c : canvas) : evaluation :=
  let reverse := reverse_complement (sequence c) in
  let ws := flat_map (step o (sequence c) reverse)
              (py_range (zlen (sequence c) - hairpin_window o)) in
  mk_eval (- Qz (zlen ws))%Q ws.

End Hairpins.

(** *** AvoidPattern *)
Module AvoidPattern.

(** [self.pattern.find_matches(sequence, window)], where [window] may be
    [None]; the matcher is the pattern's own. *)
Record t := mk {
  find_matches : dna -> option (Z * Z) -> list (Z * Z);
  window : option (Z * Z)
}.

Definition evaluate (o : t) (c : canvas) : evaluation :=
  let ws := find_matches o (sequence c) (window o) in
  mk_eval (- Qz (zlen ws))%Q ws.

End AvoidPattern.

(** *** DoNotModify *)
Module DoNotModify.

(** The problem's current and original sequences. *)
Record problem := mk_problem {
  sequence : dna;
  original_sequence : dna
}.

(** A numpy array of indices: its elements and whether its dtype is a
    float one. [np.array(l)] of a list of ints is an integer array, but
    [np.array([])] is an empty float64 array. *)
Record index_array := mk_index_array {
  elems : list Z;
  float_dtype : bool
}.

Definition np_array (l : list Z) : index_array :=
  mk_index_array l (match l with [] => true | _ => false end).

(** [self.indices] is the array of protected indices, read only when
    [window] is None. (A DoNotModify built with [indices=None] holds
    [np.array(None)], which is not None, and is not modelled.) *)
Record t := mk {
  window : option (Z * Z);
  indices : index_array;
  boost : Q
}.

(** [DoNotModify.__init__] with a list of indices. *)
Definition init (window : option (Z * Z)) (indices : list Z) (boost : Q) : t :=
  mk window (np_array indices) boost.

(** What [evaluate] returns or raises. *)
Inductive outcome :=
| Scored (e : evaluation)
| Raised (e : py_error)
| RaisedIndexError.

(** [a[i]] on a numpy array: negative indices count from the end, an index
    outside [[-n, n)] raises IndexError. *)
Definition np_get (a : dna) (i : Z) : option ascii :=
  let n := zlen a in
  if (i <? - n) || (n <=? i) then None
  else nth_error a (Z.to_nat (if i <? 0 then i + n else i)).

(** [a[indices]], fancy indexing with the elements of an integer array
    (an array of float dtype raises IndexError before any element is read,
    see [evaluate]). *)
Fixpoint np_take (a : dna) (inds : list Z) : option (list ascii) :=
  match inds with
  | [] => Some []
  | i :: r =>
      match np_get a i, np_take a r with
      | Some x, Some xs => Some (x :: xs)
      | _, _ => None
      end
  end.

(** [(x == y).min()]: the minimum of the element-wise comparison, which
    raises ValueError on an empty array. *)
Definition all_equal_min (x y : list ascii) : result bool :=
  match combine x y with
  | [] => Err ValueError
  | ps => Ok (forallb (fun p => Ascii.eqb (fst p) (snd p)) ps)
  end.

Definition evaluate (o : t) (c : problem) : outcome :=
  match window o with
  | Some (start, end_) =>
      let score := if ascii_list_eqb (py_slice (sequence c) start end_)
                        (py_slice (original_sequence c) start end_)
                   then 1%Q else (-1)%Q in
      Scored (mk_eval score [])
  | None =>
      if float_dtype (indices o) then RaisedIndexError else
      match np_take (sequence c) (elems (indices o)) with
      | None => RaisedIndexError
      | Some s =>
          match np_take (original_sequence c) (elems (indices o)) with
          | None => RaisedIndexError
          | Some orig =>
              match all_equal_min s orig with
              | Err e => Raised e
              | Ok b => Scored (mk_eval (if b then 1%Q else (-1)%Q) [])
              end
          end
      end
  end.

(** What [localize] returns. *)
Inductive localized :=
| Void (parent : t)
| Local (o : t).

(** [DoNotModify.localize]: the overlap of the windows, or the indices
    [i] with [start <= i <= end] (a boolean mask keeps the array's
    dtype). *)
Definition localize (o : t) (w : Z * Z) : localized :=
  match window o with
  | Some sw =>
      match windows_overlap sw w with
      | None => Void o
      | Some nw => Local (mk (Some nw) (indices o) (boost o))
      end
  | None =>
      let '(start, end_) := w in
      let inds := indices o in
      Local (mk None (mk_index_array
                        (filter (fun i => (start <=? i) && (i <=? end_)) (elems inds))
                        (float_dtype inds))
               (boost o))
  end.

End DoNotModify.

(** *** SequenceLengthBounds *)
Module SequenceLengthBounds.

Record t := mk {
  min_length : Z;
  max_length : option Z
}.

(** [score = (L >= mini)] or [(mini <= L <= maxi)], a bool, then
    [score - 1]. *)
Definition evaluate (o : t) (c : canvas) : evaluation :=
  let L := zlen (sequence c) in
  let score := match max_length o with
               | None => min_length o <=? L
               | Some maxi => (min_length o <=? L) && (L <=? maxi)
               end in
  mk_eval (Qz (Z.b2z score - 1)) [].

End SequenceLengthBounds.

(** *** MinimizeDifferences *)
Module MinimizeDifferences.

Record t := mk {
  window : option (Z * Z);
  reference_sequence : option dna;
  boost : Q
}.

Section Evaluate.
(** [biotools.sequences_differences] (not in src/). *)
Variable sequences_differences : dna -> option dna -> Z.

Definition eval_window (o : t) (c : canvas) : Z * Z :=
  match window o with None => (0, zlen (sequence c)) | Some w => w end.

Definition evaluate (o : t) (c : canvas) : evaluation :=
  let '(start, end_) := eval_window o c in
  let subsequence := py_slice (sequence c) start end_ in
  let diffs := - sequences_differences subsequence (reference_sequence o) in
  mk_eval (Qz (- diffs)) [eval_window o c].
End Evaluate.

End MinimizeDifferences.

(** * Properties *)

(** ** Python helpers *)

Lemma zlen_nonneg {A} (l : list A) : 0 <= zlen l.
Proof. unfold zlen; lia. Qed.

Lemma py_slice_full {A} (l : list A) (b : Z) :
  zlen l <= b -> py_slice l 0 b = l.
Proof.
  intros H. pose proof (zlen_nonneg l) as Hn.
  unfold py_slice, py_index; cbn zeta.
  replace (0 <? 0) with false by reflexivity.
  destruct (b <? 0) eqn:E; [apply Z.ltb_lt in E; lia|].
  rewrite (Z.min_l 0 (zlen l)) by lia. rewrite (Z.min_r b (zlen l)) by lia. rewrite Z.sub_0_r.
  simpl skipn. unfold zlen. rewrite Nat2Z.id. apply firstn_all.
Qed.

Lemma py_slice_length {A} (l : list A) (a b : Z) :
  0 <= a -> 0 <= b ->
  zlen (py_slice l a b) = Z.max 0 (Z.min b (zlen l) - Z.min a (zlen l)).
Proof.
  intros Ha Hb. unfold py_slice, py_index; cbn zeta.
  destruct (a <? 0) eqn:Ea; [apply Z.ltb_lt in Ea; lia|].
  destruct (b <? 0) eqn:Eb; [apply Z.ltb_lt in Eb; lia|].
  unfold zlen at 1. rewrite length_firstn, length_skipn.
  unfold zlen. lia.
Qed.

Lemma quot3_bounds (x : Z) :
  0 <= x -> 3 * Z.quot x 3 <= x < 3 * Z.quot x 3 + 3.
Proof.
  intros Hx. rewrite Z.quot_div_nonneg by lia.
  pose proof (Z.div_mod x 3 ltac:(lia)).
  pose proof (Z.mod_pos_bound x 3 ltac:(lia)). lia.
Qed.

(** ** Claim C10 *)

(** Claim C10: for an [EnforceTranslation] whose window has three times as
    many bases as its translation has residues, localizing it on any window
    that overlaps its own rebuilds an [EnforceTranslation] through its
    constructor without error, and the rebuilt objective again has a window
    of three times the length of its (sliced) translation. *)
Theorem translation_localized_keeps_frame (p : Translation.t) (W : Z * Z)
  (Hsize : snd (Translation.window p) - fst (Translation.window p)
           = 3 * zlen (Translation.translation p))
  (Hov : windows_overlap W (Translation.window p) <> None) :
  exists p', localized (EnforceTranslation p) W = Ok (EnforceTranslation p') /\
    snd (Translation.window p') - fst (Translation.window p')
    = 3 * zlen (Translation.translation p').
Proof.
  destruct p as [[ws we] st tr b].
  cbn [Translation.window Translation.translation fst snd] in *.
  unfold localized; cbn [Translation.window].
  destruct (windows_overlap W (ws, we)) as [[os oe]|] eqn:Ov; [|congruence].
  unfold windows_overlap in Ov; simpl in Ov.
  destruct (Z.max (fst W) ws <? Z.min (snd W) we) eqn:Lt; [|discriminate].
  apply Z.ltb_lt in Lt. injection Ov as <- <-.
  unfold Translation.localize_on_overlap, Translation.init.
  cbn [Translation.window Translation.translation Translation.strand
       Translation.boost fst snd bind].
  set (n := zlen tr) in *.
  set (os := Z.max (fst W) ws) in *. set (oe := Z.min (snd W) we) in *.
  assert (Hos : ws <= os) by lia. assert (Hoe : oe <= we) by lia.
  pose proof (quot3_bounds (os - ws) ltac:(lia)) as Q1.
  pose proof (quot3_bounds (oe - ws) ltac:(lia)) as Q2.
  set (sc := Z.quot (os - ws) 3) in *. set (ec := Z.quot (oe - ws) 3) in *.
  rewrite py_slice_length by lia. fold n.
  assert (Heq : Z.min we (ws + 3 * (ec + 1)) - (ws + 3 * sc)
                = 3 * Z.max 0 (Z.min (ec + 1) n - Z.min sc n)) by lia.
  rewrite Heq, Z.eqb_refl. cbn [negb bind].
  eexists; split; [reflexivity|].
  cbn [Translation.window Translation.translation fst snd].
  rewrite py_slice_length by lia. fold n. exact Heq.
Qed.

(** Witness of C10: a three-codon gene on [3, 12] localized on [5, 8]. *)
Lemma translation_localized_keeps_frame_witness :
  let p := Translation.mk (3, 12) 1 (list_ascii_of_string "MKL") 1 in
  (snd (Translation.window p) - fst (Translation.window p)
   = 3 * zlen (Translation.translation p)) /\
  windows_overlap (5, 8) (Translation.window p) <> None /\
  exists p', localized (EnforceTranslation p) (5, 8) = Ok (EnforceTranslation p') /\
    snd (Translation.window p') - fst (Translation.window p')
    = 3 * zlen (Translation.translation p').
Proof.
  intros p. split; [reflexivity|]. split; [discriminate|].
  apply (translation_localized_keeps_frame p (5, 8)); [reflexivity | discriminate].
Defined.

(** ** Localization: claims C1 and C2 *)

Lemma windows_overlap_disjoint (sw W : Z * Z) :
  snd W <= fst sw \/ snd sw <= fst W ->
  windows_overlap sw W = None /\ windows_overlap W sw = None.
Proof.
  intros H. unfold windows_overlap.
  destruct (Z.max (fst sw) (fst W) <? Z.min (snd sw) (snd W)) eqn:E1;
  [apply Z.ltb_lt in E1; lia|].
  destruct (Z.max (fst W) (fst sw) <? Z.min (snd W) (snd sw)) eqn:E2;
  [apply Z.ltb_lt in E2; lia|]. auto.
Qed.

Lemma windows_overlap_covered (a b : Z) (W : Z * Z) :
  a < b -> fst W <= a -> b <= snd W ->
  windows_overlap (a, b) W = Some (a, b) /\ windows_overlap W (a, b) = Some (a, b).
Proof.
  intros Hab H1 H2. unfold windows_overlap; cbn [fst snd].
  rewrite (Z.max_l a (fst W)), (Z.max_r (fst W) a), (Z.min_l b (snd W)),
    (Z.min_r (snd W) b) by lia.
  replace (a <? b) with true by (symmetry; apply Z.ltb_lt; lia). auto.
Qed.

Lemma breaches_windows_wend (ws we1 we2 g : Z) (st : list Z) :
  GC.breaches_windows ws we1 (Some g) st = GC.breaches_windows ws we2 (Some g) st.
Proof. destruct st as [|x [|y r]]; reflexivity. Qed.

(** Claim C2: an [EnforceGCContent], [AvoidBlastMatches] or
    [EnforceTranslation] with an explicit window, localized on a window that
    shares no base with it, is the [VoidObjective] of that objective, whose
    evaluation has the objective's best possible score and no violated
    window. *)
Theorem localized_disjoint_is_void (o : objective) (sw W : Z * Z)
  (Hw : explicit_window o = Some sw)
  (Hdis : snd W <= fst sw \/ snd sw <= fst W) :
  localized o W = Ok (VoidObjective o) /\
  (forall gc_content blast_sequence translate base c,
     evaluate gc_content blast_sequence translate base (VoidObjective o) c
     = Ok (mk_eval (best_possible_score base o) [])).
Proof.
  destruct (windows_overlap_disjoint sw W Hdis) as [H1 H2].
  split; [|reflexivity].
  destruct o; cbn [explicit_window] in Hw; try discriminate; unfold localized.
  - rewrite Hw, H1. reflexivity.
  - rewrite Hw, H1. reflexivity.
  - injection Hw as <-. rewrite H2. reflexivity.
Qed.

(** Witness of C2: a GC-content objective on [0, 10] localized on [20, 30]. *)
Lemma localized_disjoint_is_void_witness :
  let o := GCContent (GC.init (3 # 10) (7 # 10) None (Some 5) (Some (0, 10)) 1) in
  explicit_window o = Some (0, 10) /\
  (snd (20, 30) <= fst (0, 10) \/ snd (0, 10) <= fst (20, 30)) /\
  localized o (20, 30) = Ok (VoidObjective o).
Proof.
  intros o. split; [reflexivity|]. split; [right; simpl; lia|].
  exact (proj1 (localized_disjoint_is_void o (0, 10) (20, 30) eq_refl
                  ltac:(right; simpl; lia))).
Defined.

(** Counterexample to C1: two incompatible regions [(0,1)] and [(2,3)],
    both covered by the localization window [(0,10)]. The objective scores
    -1 (one incompatible pair) and reports both regions. The localized
    objective scores -2, because it counts the pair once from each side,
    and it reports no window. *)
Lemma localized_sound_counterexample :
  let p := RC.mk [(0, 1); (2, 3)] (fun _ _ _ => false) 1 in
  let c := mk_canvas (list_ascii_of_string "ACGTACGTAC") in
  let ev := evaluate (fun _ _ => []) (fun _ _ _ _ _ _ => []) (fun s => s) 0 in
  localized (RegionsCompatibility p) (0, 10)
    = Ok (LocalizedObjective p [(0, 1); (2, 3)]) /\
  ev (RegionsCompatibility p) c = Ok (mk_eval (-1) [(0, 1); (2, 3)]) /\
  ev (LocalizedObjective p [(0, 1); (2, 3)]) c = Ok (mk_eval (-2) []) /\
  ev (LocalizedObjective p [(0, 1); (2, 3)]) c <> ev (RegionsCompatibility p) c.
Proof.
  intros p c ev. split; [reflexivity|]. split; [reflexivity|].
  split; [reflexivity|]. vm_compute. discriminate.
Qed.

(** Claim C1, as amended: localization is sound for [EnforceGCContent] and
    [AvoidBlastMatches] (with an explicit non-empty window covered by the
    localization window, or with no window, a localization window covering
    the whole sequence and a non-negative [gc_window] / [min_align_length])
    and for [EnforceTranslation] (non-empty window of three bases per
    residue, covered by the localization window): the localized objective
    evaluates to the same score and violated windows as the objective. *)
Theorem localized_sound
  (gc_content : dna -> option Z -> list Q)
  (blast_sequence : dna -> string -> Z -> Z -> Z -> Z -> list (Z * Z))
  (translate : dna -> dna) (base : Q) :
  let ev := evaluate gc_content blast_sequence translate base in
  (forall p a b W c,
     GC.window p = Some (a, b) -> a < b -> fst W <= a -> b <= snd W ->
     exists o', localized (GCContent p) W = Ok o' /\
                ev o' c = ev (GCContent p) c) /\
  (forall p W c,
     GC.window p = None -> (forall g, GC.gc_window p = Some g -> 0 <= g) ->
     fst W <= 0 -> zlen (sequence c) <= snd W ->
     exists o', localized (GCContent p) W = Ok o' /\
                ev o' c = ev (GCContent p) c) /\
  (forall p a b W c,
     Blast.window p = Some (a, b) -> a < b -> fst W <= a -> b <= snd W ->
     exists o', localized (AvoidBlast p) W = Ok o' /\
                ev o' c = ev (AvoidBlast p) c) /\
  (forall p W c,
     Blast.window p = None -> 0 <= Blast.min_align_length p ->
     fst W <= 0 -> zlen (sequence c) <= snd W ->
     exists o', localized (AvoidBlast p) W = Ok o' /\
                ev o' c = ev (AvoidBlast p) c) /\
  (forall p W c,
     fst (Translation.window p) < snd (Translation.window p) ->
     snd (Translation.window p) - fst (Translation.window p)
       = 3 * zlen (Translation.translation p) ->
     fst W <= fst (Translation.window p) -> snd (Translation.window p) <= snd W ->
     exists o', localized (EnforceTranslation p) W = Ok o' /\
                ev o' c = ev (EnforceTranslation p) c).
Proof.
  intros ev. split; [|split; [|split; [|split]]].
  - intros p a b W c Hw Hab H1 H2. exists (GCContent p). split; [|reflexivity].
    unfold localized. rewrite Hw, (proj1 (windows_overlap_covered a b W Hab H1 H2)).
    destruct p; cbn in Hw |- *; subst; reflexivity.
  - intros p W c Hw Hg H1 H2. destruct W as [s e]; cbn [fst snd] in H1, H2.
    unfold localized. rewrite Hw.
    destruct (GC.gc_window p) as [g|] eqn:Eg.
    + eexists; split; [reflexivity|].
      specialize (Hg g eq_refl). rewrite (Z.max_l 0 (s - g)) by lia.
      destruct p; cbn in Hw, Eg |- *; subst.
      unfold evaluate, GC.evaluate, GC.breaches, GC.measured, GC.eval_window.
      cbn [GC.window GC.gc_window GC.gc_min GC.gc_max].
      rewrite (py_slice_full (sequence c) (e + g)) by lia.
      rewrite (py_slice_full (sequence c) (zlen (sequence c))) by lia.
      f_equal; try apply breaches_windows_wend.
    + eexists; split; [reflexivity|].
      destruct p; cbn in Hw, Eg |- *; subst; reflexivity.
  - intros p a b W c Hw Hab H1 H2. exists (AvoidBlast p). split; [|reflexivity].
    unfold localized. rewrite Hw, (proj1 (windows_overlap_covered a b W Hab H1 H2)).
    destruct p; cbn in Hw |- *; subst; reflexivity.
  - intros p W c Hw Hr H1 H2. destruct W as [s e]; cbn [fst snd] in H1, H2.
    unfold localized. rewrite Hw.
    eexists; split; [reflexivity|].
    rewrite (Z.max_l 0 (s - Blast.min_align_length p)) by lia.
    destruct p as [db wsz pid na nt r win]; cbn in Hw, Hr |- *; subst.
    unfold evaluate, Blast.evaluate. cbn [Blast.window].
    rewrite (py_slice_full (sequence c) (e + r)) by lia.
    rewrite (py_slice_full (sequence c) (zlen (sequence c))) by lia.
    reflexivity.
  - intros p W c Hab Hsize H1 H2. exists (EnforceTranslation p). split; [|reflexivity].
    destruct p as [[a b] st tr bo].
    cbn [Translation.window Translation.translation fst snd] in Hab, Hsize, H1, H2.
    unfold localized. cbn [Translation.window].
    rewrite (proj2 (windows_overlap_covered a b W Hab H1 H2)).
    unfold Translation.localize_on_overlap, Translation.init.
    cbn [Translation.window Translation.translation Translation.strand
         Translation.boost fst snd].
    replace (Z.quot (a - a) 3) with 0 by (rewrite Z.sub_diag; reflexivity).
    replace (Z.quot (b - a) 3) with (zlen tr)
      by (rewrite Hsize, Z.mul_comm, Z.quot_mul; lia).
    rewrite py_slice_full by lia.
    replace (a + 3 * 0) with a by lia.
    replace (Z.min b (a + 3 * (zlen tr + 1))) with b by lia.
    rewrite Hsize, Z.eqb_refl. reflexivity.
Qed.

(** Witness of C1: a GC-content objective on [2, 8], localized on [0, 10]. *)
Lemma localized_sound_witness :
  let p := GC.init (3 # 10) (7 # 10) None (Some 3) (Some (2, 8)) 1 in
  let c := mk_canvas (list_ascii_of_string "ACGTACGTAC") in
  GC.window p = Some (2, 8) /\ 2 < 8 /\ fst (0, 10) <= 2 /\ 8 <= snd (0, 10) /\
  exists o', localized (GCContent p) (0, 10) = Ok o' /\
    evaluate (fun _ _ => [1 # 2]) (fun _ _ _ _ _ _ => []) (fun s => s) 0 o' c
    = evaluate (fun _ _ => [1 # 2]) (fun _ _ _ _ _ _ => []) (fun s => s) 0
        (GCContent p) c.
Proof.
  intros p c. split; [reflexivity|]. split; [lia|]. split; [simpl; lia|].
  split; [simpl; lia|].
  exact (proj1 (localized_sound (fun _ _ => [1 # 2]) (fun _ _ _ _ _ _ => [])
                  (fun s => s) 0) p 2 8 (0, 10) c eq_refl
           ltac:(lia) ltac:(simpl; lia) ltac:(simpl; lia)).
Defined.

(** ** The breach signal of [EnforceGCContent] *)

Lemma Qle_bool_false (a b : Q) : Qle_bool a b = false -> (b < a)%Q.
Proof.
  intros H. apply Qnot_le_lt. intros H'. apply Qle_bool_iff in H'. congruence.
Qed.

Ltac qcases :=
  repeat match goal with
  | |- context [Qle_bool ?a ?b] =>
      let E := fresh "E" in
      destruct (Qle_bool a b) eqn:E;
      [apply Qle_bool_iff in E | apply Qle_bool_false in E]
  end.

Lemma breach_nonneg (lo hi v : Q) : (0 <= GC.breach lo hi v)%Q.
Proof. unfold GC.breach, qmax. qcases; lra. Qed.

Lemma breach_zero_iff (lo hi v : Q) :
  (GC.breach lo hi v == 0)%Q <-> (lo <= v <= hi)%Q.
Proof. unfold GC.breach, qmax. qcases; split; intros; lra. Qed.

Lemma qsum_nonneg (l : list Q) :
  Forall (fun b => 0 <= b)%Q l -> (0 <= qsum l)%Q.
Proof.
  unfold qsum. induction 1 as [|x r Hx Hr IH]; cbn [fold_right];
  [apply Qle_refl | lra].
Qed.

Lemma qsum_zero_iff (l : list Q) :
  Forall (fun b => 0 <= b)%Q l ->
  (qsum l == 0)%Q <-> Forall (fun b => b == 0)%Q l.
Proof.
  induction l as [|b l IH]; intros Hl; cbn [qsum fold_right].
  - split; [constructor | intros; reflexivity].
  - inversion Hl as [|? ? Hb Hr]; subst.
    pose proof (qsum_nonneg l Hr) as Hs.
    fold (qsum l). split.
    + intros H. constructor; [lra|]. apply IH; [exact Hr | lra].
    + intros H. inversion H as [|? ? H0 H1]; subst.
      apply IH in H1; [|exact Hr]. lra.
Qed.

Lemma breaches_starts_nil (i : Z) (l : list Q) :
  GC.breaches_starts_from i l = [] <-> Forall (fun b => b <= 0)%Q l.
Proof.
  revert i; induction l as [|b l IH]; intros i; cbn [GC.breaches_starts_from].
  - split; constructor || reflexivity.
  - destruct (Qle_bool b 0) eqn:E; cbn [negb].
    + apply Qle_bool_iff in E. rewrite IH. split; [intros; constructor; auto|].
      intros H; inversion H; auto.
    + apply Qle_bool_false in E. split; [discriminate|].
      intros H; inversion H; lra.
Qed.

Lemma merge_loop_not_nil (ws w cs le : Z) (r : list Z) :
  GC.merge_loop ws w cs le r <> [].
Proof.
  revert cs le; induction r as [|i r IH]; intros cs le; cbn [GC.merge_loop];
  [discriminate|]. destruct (le + w <? i); [discriminate | apply IH].
Qed.

Lemma breaches_windows_nil (ws we : Z) (gw : option Z) (st : list Z)
  (bw : list (Z * Z)) :
  GC.breaches_windows ws we gw st = Ok bw -> (bw = [] <-> st = []).
Proof.
  destruct st as [|x [|y r]]; cbn [GC.breaches_windows]; intros H.
  - injection H as <-; tauto.
  - destruct gw; injection H as <-; split; discriminate.
  - destruct gw as [g|]; [|discriminate]. injection H as <-.
    split; [|discriminate]. intros H; exfalso.
    exact (merge_loop_not_nil ws g x (x + g) (y :: r) H).
Qed.

(** An evaluation of [EnforceGCContent] that returns reports no window iff
    no breach is positive, and scores 0 iff every breach is 0; both hold iff
    every measured GC value lies within the bounds. *)
Lemma gc_evaluate_pass (gc_content : dna -> option Z -> list Q) (o : GC.t)
  (c : canvas) (e : evaluation) :
  GC.evaluate gc_content o c = Ok e ->
  (windows e = [] <-> Forall (fun v => GC.gc_min o <= v <= GC.gc_max o)%Q
                              (GC.measured gc_content o c)) /\
  ((score e == 0)%Q <-> Forall (fun v => GC.gc_min o <= v <= GC.gc_max o)%Q
                              (GC.measured gc_content o c)).
Proof.
  unfold GC.evaluate. destruct (GC.eval_window o c) as [wstart wend].
  destruct (GC.breaches_windows wstart wend (GC.gc_window o)
              (GC.breaches_starts (GC.breaches gc_content o c))) as [bw|err] eqn:Bw;
  cbn [bind]; intros H; [|discriminate]. injection H as <-. cbn [windows score].
  apply breaches_windows_nil in Bw. unfold GC.breaches_starts, GC.breaches in Bw.
  unfold GC.breaches.
  set (m := GC.measured gc_content o c) in *.
  assert (Hnn : Forall (fun b => 0 <= b)%Q (map (GC.breach (GC.gc_min o) (GC.gc_max o)) m)).
  { apply Forall_map, Forall_forall. intros; apply breach_nonneg. }
  assert (Hin : Forall (fun b => b == 0)%Q (map (GC.breach (GC.gc_min o) (GC.gc_max o)) m)
                <-> Forall (fun v => GC.gc_min o <= v <= GC.gc_max o)%Q m).
  { rewrite Forall_map. split; apply Forall_impl; intros v; apply breach_zero_iff. }
  split.
  - rewrite Bw, breaches_starts_nil, <- Hin.
    rewrite Forall_forall in Hnn.
    split; intros H; rewrite Forall_forall in *; intros b Hb;
    specialize (H b Hb); specialize (Hnn b Hb); lra.
  - rewrite <- Hin, <- qsum_zero_iff by exact Hnn. split; intros; lra.
Qed.

Lemma emt_evaluate_pass (predictor : dna -> Q) (lo hi : Q)
  (loc : option location) (boost : Q) (o : EMT.t) (c : canvas) (e : evaluation) :
  EMT.init (Some lo) (Some hi) None loc boost = Ok o ->
  EMT.evaluate predictor o c = Ok e ->
  exists l s, loc = Some l /\ extract_sequence l (sequence c) = Ok s /\
    windows e = [(lstart l, lend l)] /\
    (score e == (1 # 2) * (hi - lo) - qabs (predictor s - (1 # 2) * (lo + hi)))%Q /\
    ((0 <= score e)%Q <-> (lo <= predictor s <= hi)%Q).
Proof.
  intros Hi He. cbn [EMT.init] in Hi. injection Hi as <-.
  unfold EMT.evaluate in He. cbn [EMT.loc EMT.mini EMT.maxi EMT.target] in He.
  destruct loc as [l|]; [|discriminate].
  destruct (extract_sequence l (sequence c)) as [s|err] eqn:Ex; cbn [bind] in He;
  [|discriminate]. injection He as <-.
  exists l, s. split; [reflexivity|]. split; [exact Ex|]. split; [reflexivity|].
  cbn [score]. split; [reflexivity|]. unfold qabs. qcases;
  (split; [intros; split; lra | intros [? ?]; lra]).
Qed.

(** ** Bound constraints: claim C3 *)

(** Counterexample to C3: [EnforceMeltingTemperature(mini=50, maxi=70)] on a
    location of 10 bases whose predicted Tm is 60, within the bounds. The
    evaluation scores 10, not 0, and it reports the location as a violated
    window. *)
Lemma bound_constraints_pass_counterexample :
  let l := mk_location 0 10 None in
  let c := mk_canvas (list_ascii_of_string "ACGTACGTAC") in
  exists o e,
    EMT.init (Some 50%Q) (Some 70%Q) None (Some l) 1 = Ok o /\
    EMT.evaluate (fun _ => 60%Q) o c = Ok e /\
    (50 <= 60 <= 70)%Q /\
    (score e == 10)%Q /\ windows e = [(0, 10)] /\
    ~ ((score e == 0)%Q /\ windows e = []).
Proof.
  intros l c. do 2 eexists.
  split; [reflexivity|]. split; [reflexivity|].
  split; [lra|]. cbn [score windows].
  split; [vm_compute; reflexivity|]. split; [reflexivity|].
  intros [_ H]. discriminate.
Qed.

(** Claim C3, as amended: an [EnforceGCContent] evaluation that returns
    scores 0 with no violated window iff every measured GC value lies within
    [gc_min, gc_max]. An [EnforceMeltingTemperature] built from [mini] and
    [maxi] (no target) always reports its location as its only window; it
    scores [0.5 * (maxi - mini) - |Tm - (mini + maxi) / 2|], which is
    non-negative iff the predicted Tm lies within [mini, maxi]. *)
Theorem bound_constraints_pass :
  (forall gc_content o c e,
     GC.evaluate gc_content o c = Ok e ->
     ((score e == 0)%Q /\ windows e = []) <->
     Forall (fun v => GC.gc_min o <= v <= GC.gc_max o)%Q
       (GC.measured gc_content o c)) /\
  (forall predictor lo hi loc boost o c e,
     EMT.init (Some lo) (Some hi) None loc boost = Ok o ->
     EMT.evaluate predictor o c = Ok e ->
     exists l s, loc = Some l /\ extract_sequence l (sequence c) = Ok s /\
       windows e = [(lstart l, lend l)] /\
       (score e == (1 # 2) * (hi - lo) - qabs (predictor s - (1 # 2) * (lo + hi)))%Q /\
       ((0 <= score e)%Q <-> (lo <= predictor s <= hi)%Q)).
Proof.
  split.
  - intros gc_content o c e H.
    destruct (gc_evaluate_pass gc_content o c e H) as [Hw Hs].
    rewrite <- Hw. split; [tauto|]. intros Hnil. split; [apply Hs, Hw, Hnil | exact Hnil].
  - exact emt_evaluate_pass.
Qed.

(** Witness of C3: a global GC-content objective on a sequence of GC
    content 1/2, within [0.3, 0.7]; and [EnforceMeltingTemperature(mini=50,
    maxi=70)] on a location of 10 bases whose predicted Tm is 60. *)
Lemma bound_constraints_pass_witness :
  let o := GC.init (3 # 10) (7 # 10) None None None 1 in
  let c := mk_canvas (list_ascii_of_string "ACGTACGTAC") in
  let l := mk_location 0 10 None in
  let mo := EMT.mk 50 70 ((1 # 2) * (50 + 70)) (Some l) 1 in
  GC.evaluate (fun _ _ => [1 # 2]) o c = Ok (mk_eval 0 []) /\
  (((score (mk_eval 0 []) == 0)%Q /\ windows (mk_eval 0 []) = []) <->
   Forall (fun v => GC.gc_min o <= v <= GC.gc_max o)%Q
     (GC.measured (fun _ _ => [1 # 2]) o c)) /\
  EMT.init (Some 50%Q) (Some 70%Q) None (Some l) 1 = Ok mo /\
  (exists e, EMT.evaluate (fun _ => 60%Q) mo c = Ok e /\
   exists l' s, Some l = Some l' /\ extract_sequence l' (sequence c) = Ok s /\
     windows e = [(lstart l', lend l')] /\
     (score e == (1 # 2) * (70 - 50) - qabs (60 - (1 # 2) * (50 + 70)))%Q /\
     ((0 <= score e)%Q <-> (50 <= 60 <= 70)%Q)).
Proof.
  intros o c l mo.
  destruct bound_constraints_pass as [Hg He].
  split; [vm_compute; reflexivity|].
  split; [exact (Hg (fun _ _ => [1 # 2]) o c (mk_eval 0 [])
                   ltac:(vm_compute; reflexivity))|].
  split; [reflexivity|].
  destruct (EMT.evaluate (fun _ => 60%Q) mo c) as [e|err] eqn:E;
  [|vm_compute in E; discriminate].
  exists e. split; [reflexivity|].
  exact (He (fun _ => 60%Q) 50%Q 70%Q (Some l) 1%Q mo c e eq_refl E).
Defined.

(** ** Violated windows: claim C7 *)

Lemma neg_Qz_le_0 (n : Z) : (- Qz n <= 0)%Q <-> 0 <= n.
Proof. unfold Qz, Qle. cbn. lia. Qed.

Lemma neg_Qz_eq_0 (n : Z) : (- Qz n == 0)%Q <-> n = 0.
Proof. unfold Qz, Qeq. cbn. lia. Qed.




(** ** Breach-run merging: claim C4 *)

Lemma last_cons {A} (x : A) (r : list A) (d : A) : last (x :: r) d = last r x.
Proof.
  revert x d; induction r as [|y r IH]; intros x d; [reflexivity|].
  change (last (x :: y :: r) d) with (last (y :: r) d).
  rewrite (IH y d). symmetry; apply IH.
Qed.

Lemma last_app_cons {A} (l r : list A) (x d : A) : last (l ++ x :: r) d = last r x.
Proof.
  revert d; induction l as [|y l IH]; intros d; cbn [app].
  - apply last_cons.
  - rewrite last_cons. apply IH.
Qed.

Lemma run_chain_app (w p : Z) (r1 r2 : list Z) :
  run_chain w p (r1 ++ r2) <-> run_chain w p r1 /\ run_chain w (last r1 p) r2.
Proof.
  revert p; induction r1 as [|x r1 IH]; intros p; cbn [app run_chain].
  - cbn [last]. tauto.
  - rewrite IH, last_cons. tauto.
Qed.

(** The loop extends the current run over a whole chain of breach starts. *)
Lemma merge_loop_chain (ws w cs prev : Z) (r rest : list Z) :
  run_chain w prev r ->
  GC.merge_loop ws w cs (prev + w) (r ++ rest)
  = GC.merge_loop ws w cs (last r prev + w) rest.
Proof.
  revert prev; induction r as [|x r IH]; intros prev Hr; [reflexivity|].
  destruct Hr as [Hx Hr]. cbn [app GC.merge_loop].
  replace (prev + w + w <? x) with false by (symmetry; apply Z.ltb_ge; lia).
  rewrite IH by exact Hr. rewrite last_cons. reflexivity.
Qed.

Lemma breaches_windows_many (ws we w a : Z) (l : list Z) :
  l <> [] ->
  GC.breaches_windows ws we (Some w) (a :: l) = Ok (GC.merge_loop ws w a (a + w) l).
Proof. destruct l; [contradiction | reflexivity]. Qed.

(** Claim C4: with a sliding window of width [w], two runs of breach starts
    (each start within two widths of the previous one) whose separation
    [b - (last1 + w)] (from the end of the first run's last window to the
    second run's first start) exceeds [w] are reported as two windows, one
    per run. A separation of at most [w] (so in particular less than [w])
    gives a single merged window. Windows are offset by the evaluated
    window's start. Concretely, with [w = 5], breach starts [0; 20] give
    [(0,5); (20,25)] and breach starts [0; 6] give [(0,11)], also through a
    whole [EnforceGCContent] evaluation. *)
Theorem breach_runs_merging :
  (forall ws we w a r1 b r2,
     run_chain w a r1 -> run_chain w b r2 -> last r1 a + w + w < b ->
     GC.breaches_windows ws we (Some w) (a :: r1 ++ b :: r2)
     = Ok [(ws + a, ws + (last r1 a + w)); (ws + b, ws + (last r2 b + w))]) /\
  (forall ws we w a r1 b r2,
     run_chain w a r1 -> run_chain w b r2 -> b <= last r1 a + w + w ->
     GC.breaches_windows ws we (Some w) (a :: r1 ++ b :: r2)
     = Ok [(ws + a, ws + (last r2 b + w))]) /\
  GC.breaches_windows 0 30 (Some 5) [0; 20] = Ok [(0, 5); (20, 25)] /\
  GC.breaches_windows 0 30 (Some 5) [0; 6] = Ok [(0, 11)] /\
  (let o := GC.init (3 # 10) (7 # 10) None (Some 5) None 1 in
   let c := mk_canvas (repeat "A"%char 30) in
   let signal (breach_at : Z -> bool) :=
     map (fun i => if breach_at i then 1%Q else (1 # 2)%Q) (py_range 26) in
   (exists e, GC.evaluate (fun _ _ => signal (fun i => (i =? 0) || (i =? 20))) o c
              = Ok e /\ windows e = [(0, 5); (20, 25)]) /\
   (exists e, GC.evaluate (fun _ _ => signal (fun i => (i =? 0) || (i =? 6))) o c
              = Ok e /\ windows e = [(0, 11)])).
Proof.
  split; [|split; [|split; [|split; [|split]]]].
  - intros ws we w a r1 b r2 H1 H2 Hsep.
    rewrite breaches_windows_many by (destruct r1; discriminate).
    rewrite merge_loop_chain by exact H1. cbn [GC.merge_loop].
    replace (last r1 a + w + w <? b) with true by (symmetry; apply Z.ltb_lt; lia).
    rewrite <- (app_nil_r r2), merge_loop_chain by exact H2.
    rewrite app_nil_r. reflexivity.
  - intros ws we w a r1 b r2 H1 H2 Hsep.
    rewrite breaches_windows_many by (destruct r1; discriminate).
    assert (Hc : run_chain w a (r1 ++ b :: r2)).
    { apply run_chain_app. split; [exact H1|]. cbn [run_chain]. split; [lia | exact H2]. }
    rewrite <- (app_nil_r (r1 ++ b :: r2)), merge_loop_chain by exact Hc.
    rewrite last_app_cons. reflexivity.
  - reflexivity.
  - reflexivity.
  - eexists; split; [vm_compute; reflexivity | reflexivity].
  - eexists; split; [vm_compute; reflexivity | reflexivity].
Qed.

(** Witness of C4: runs [0; 3] and [20] with [w = 5], and runs [0] and [6]. *)
Lemma breach_runs_merging_witness :
  (run_chain 5 0 [3] /\ run_chain 5 20 [] /\ last [3] 0 + 5 + 5 < 20 /\
   GC.breaches_windows 0 30 (Some 5) (0 :: [3] ++ 20 :: [])
   = Ok [(0 + 0, 0 + (last [3] 0 + 5)); (0 + 20, 0 + (last [] 20 + 5))]) /\
  (run_chain 5 0 [] /\ run_chain 5 6 [] /\ 6 <= last [] 0 + 5 + 5 /\
   GC.breaches_windows 0 30 (Some 5) (0 :: [] ++ 6 :: [])
   = Ok [(0 + 0, 0 + (last [] 6 + 5))]).
Proof.
  split.
  - split; [cbn; split; [lia | exact I]|]. split; [exact I|]. split; [cbn; lia|].
    apply (proj1 breach_runs_merging); [cbn; split; [lia | exact I] | exact I | cbn; lia].
  - split; [exact I|]. split; [exact I|]. split; [cbn; lia|].
    apply (proj1 (proj2 breach_runs_merging)); [exact I | exact I | cbn; lia].
Defined.

(** ** The uniqueness scanner: claims C5 and C6 *)

(** Claim C5 (code defect): on ["AAAAA" + "CCCCC" + "AAAAA"] with
    [length = 5] and no reverse complement, the scanner of
    [AvoidNonuniqueKmers] / [AvoidNonuniqueSegments] passes (score 1, no
    window). [range(len(sequence) - self.length)] stops before the last
    start position 10, so the second ["AAAAA"] is never recorded and the key
    has only its occurrence [(0, 5)]. *)
Theorem nonunique_concrete_case :
  let o := Nonunique.mk 5 None false in
  let s := list_ascii_of_string "AAAAACCCCCAAAAA" in
  Nonunique.evaluate o (mk_canvas s) = mk_eval 1 [] /\
  dict_get (Nonunique.kmers_locations o s) (list_ascii_of_string "AAAAA") = Ok [(0, 5)] /\
  py_slice s 10 15 = list_ascii_of_string "AAAAA" /\
  Nonunique.repeated_keys (Nonunique.kmers_locations o s) = [].
Proof.
  intros o s. split; [vm_compute; reflexivity|].
  split; [vm_compute; reflexivity|]. split; vm_compute; reflexivity.
Qed.

Lemma ascii_list_eqb_true (a b : dna) : ascii_list_eqb a b = true <-> a = b.
Proof.
  unfold ascii_list_eqb. destruct (list_eq_dec ascii_dec a b); split; congruence.
Qed.

Lemma pair_leb_total (p q : Z * Z) : pair_leb p q = false -> pair_leb q p = true.
Proof.
  unfold pair_leb. destruct p as [a b], q as [c d]; cbn [fst snd].
  intros H. apply orb_false_iff in H as [H1 H2]. apply Z.ltb_ge in H1.
  apply orb_true_iff. destruct (Z.eq_dec a c) as [->|Hne].
  - right. apply andb_false_iff in H2 as [H2|H2]; [rewrite Z.eqb_refl in H2; discriminate|].
    apply Z.leb_gt in H2. apply andb_true_iff; split; [apply Z.eqb_refl | apply Z.leb_le; lia].
  - left. apply Z.ltb_lt. lia.
Qed.

Lemma insert_sorted_perm (p : Z * Z) (l : list (Z * Z)) :
  Permutation (insert_sorted p l) (p :: l).
Proof.
  induction l as [|q r IH]; cbn [insert_sorted]; [reflexivity|].
  destruct (pair_leb p q); [reflexivity|].
  rewrite IH. apply perm_swap.
Qed.

Lemma py_sorted_perm (l : list (Z * Z)) : Permutation (py_sorted l) l.
Proof.
  induction l as [|p r IH]; cbn [py_sorted]; [reflexivity|].
  rewrite insert_sorted_perm, IH. reflexivity.
Qed.

Definition pair_le (p q : Z * Z) : Prop := pair_leb p q = true.

Lemma insert_sorted_hd (p q : Z * Z) (l : list (Z * Z)) :
  HdRel pair_le q l -> pair_le q p -> HdRel pair_le q (insert_sorted p l).
Proof.
  intros Hl Hp. destruct l as [|x r]; cbn [insert_sorted].
  - constructor; exact Hp.
  - destruct (pair_leb p x); constructor; [exact Hp|]. inversion Hl; assumption.
Qed.

Lemma insert_sorted_sorted (p : Z * Z) (l : list (Z * Z)) :
  Sorted pair_le l -> Sorted pair_le (insert_sorted p l).
Proof.
  induction l as [|q r IH]; intros Hs; cbn [insert_sorted].
  - repeat constructor.
  - destruct (pair_leb p q) eqn:E.
    + constructor; [exact Hs | constructor; exact E].
    + inversion Hs as [|? ? Hr Hhd]; subst.
      constructor; [apply IH, Hr|].
      apply insert_sorted_hd; [exact Hhd | apply pair_leb_total, E].
Qed.

Lemma py_sorted_sorted (l : list (Z * Z)) : Sorted pair_le (py_sorted l).
Proof.
  induction l as [|p r IH]; cbn [py_sorted]; [constructor|].
  apply insert_sorted_sorted, IH.
Qed.

Lemma table_append_keys (k : dna) (p : Z * Z) (tb : Nonunique.kmer_table) (x : dna) :
  In x (map fst (Nonunique.table_append k p tb)) <-> x = k \/ In x (map fst tb).
Proof.
  induction tb as [|[k' ps] r IH]; cbn [Nonunique.table_append map fst In].
  - intuition (subst; auto).
  - destruct (ascii_list_eqb k k') eqn:E.
    + apply ascii_list_eqb_true in E; subst. cbn [map fst In]. intuition (subst; auto).
    + cbn [map fst In]. rewrite IH. intuition (subst; auto).
Qed.

Lemma table_append_nodup (k : dna) (p : Z * Z) (tb : Nonunique.kmer_table) :
  NoDup (map fst tb) -> NoDup (map fst (Nonunique.table_append k p tb)).
Proof.
  induction tb as [|[k' ps] r IH]; cbn [Nonunique.table_append map fst]; intros Hn.
  - repeat constructor; intros [].
  - inversion Hn as [|? ? Hni Hnr]; subst.
    destruct (ascii_list_eqb k k') eqn:E; cbn [map fst].
    + constructor; assumption.
    + constructor; [|apply IH, Hnr].
      rewrite table_append_keys. intros [H|H]; [|contradiction].
      rewrite H in E. rewrite (proj2 (ascii_list_eqb_true k k) eq_refl) in E.
      discriminate.
Qed.

Lemma fold_left_invariant {A B} (P : A -> Prop) (f : A -> B -> A) (l : list B) (a : A) :
  (forall a b, P a -> P (f a b)) -> P a -> P (fold_left f l a).
Proof.
  intros Hf. revert a; induction l as [|b l IH]; intros a Ha; cbn [fold_left];
  [exact Ha | apply IH, Hf, Ha].
Qed.

Lemma kmers_locations_nodup (o : Nonunique.t) (s : dna) :
  NoDup (map fst (Nonunique.kmers_locations o s)).
Proof.
  unfold Nonunique.kmers_locations, Nonunique.record_forward, Nonunique.record_reverse.
  assert (Hf : NoDup (map fst (fold_left (fun tb i =>
      Nonunique.table_append (py_slice s i (i + Nonunique.length o))
        (i, i + Nonunique.length o) tb)
      (py_range (zlen s - Nonunique.length o)) []))).
  { apply fold_left_invariant; [intros; apply table_append_nodup; assumption | constructor]. }
  destruct (Nonunique.include_reverse_complement o); [|exact Hf].
  apply fold_left_invariant; [intros; apply table_append_nodup; assumption | exact Hf].
Qed.

Lemma min_by_start_spec (best : Z * Z) (l : list (Z * Z)) :
  In (Nonunique.min_by_start best l) (best :: l) /\
  fst (Nonunique.min_by_start best l) <= fst best /\
  forall q, In q l -> fst (Nonunique.min_by_start best l) <= fst q.
Proof.
  revert best; induction l as [|q r IH]; intros best; cbn [Nonunique.min_by_start].
  - split; [left; reflexivity|]. split; [lia | intros q []].
  - destruct (fst q <? fst best) eqn:E.
    + apply Z.ltb_lt in E. destruct (IH q) as [H1 [H2 H3]].
      split; [right; exact H1|]. split; [lia|].
      intros q' [<-|Hq']; [lia | apply H3, Hq'].
    + apply Z.ltb_ge in E. destruct (IH best) as [H1 [H2 H3]].
      split; [destruct H1 as [H1|H1]; [left; exact H1 | right; right; exact H1]|].
      split; [lia|]. intros q' [<-|Hq']; [lia | apply H3, Hq'].
Qed.

Lemma first_occurrence_spec (ps : list (Z * Z)) :
  ps <> [] ->
  In (Nonunique.first_occurrence ps) ps /\
  forall p, In p ps -> fst (Nonunique.first_occurrence ps) <= fst p.
Proof.
  destruct ps as [|p r]; [contradiction|]. intros _.
  cbn [Nonunique.first_occurrence].
  destruct (min_by_start_spec p r) as [H1 [H2 H3]].
  split; [exact H1|]. intros q [<-|Hq]; [exact H2 | apply H3, Hq].
Qed.

Lemma nonunique_windows (o : Nonunique.t) (c : canvas) :
  windows (Nonunique.evaluate o c)
  = py_sorted (map (fun en => Nonunique.first_occurrence (snd en))
                 (Nonunique.repeated_keys
                    (Nonunique.kmers_locations o (Nonunique.window_sequence o c)))).
Proof.
  unfold Nonunique.evaluate; cbv zeta.
  destruct (py_sorted _); reflexivity.
Qed.

Lemma nonunique_score (o : Nonunique.t) (c : canvas) :
  let rk := Nonunique.repeated_keys
              (Nonunique.kmers_locations o (Nonunique.window_sequence o c)) in
  score (Nonunique.evaluate o c)
  = match rk with [] => 1%Q | _ => (- Qz (zlen rk))%Q end.
Proof.
  intros rk. unfold Nonunique.evaluate; cbv zeta. fold rk.
  pose proof (py_sorted_perm (map (fun en => Nonunique.first_occurrence (snd en)) rk))
    as Hp.
  apply Permutation_length in Hp. rewrite length_map in Hp.
  destruct (py_sorted _) as [|x r] eqn:E; destruct rk as [|y rk'] eqn:R;
  cbn [List.length] in Hp; try discriminate; [reflexivity|].
  cbn [score]. unfold zlen. cbn [List.length]. rewrite Hp. reflexivity.
Qed.

(** Counterexample to C6: on ["ACGT"] with [length = 2], no key is
    recorded twice, and the scanner scores 1, not 0. *)
Lemma nonunique_report_counterexample :
  let o := Nonunique.mk 2 None false in
  let c := mk_canvas (list_ascii_of_string "ACGT") in
  Nonunique.repeated_keys (Nonunique.kmers_locations o (Nonunique.window_sequence o c)) = [] /\
  score (Nonunique.evaluate o c) = 1%Q /\
  ~ (score (Nonunique.evaluate o c) == 0)%Q.
Proof.
  intros o c. split; [vm_compute; reflexivity|]. split; [vm_compute; reflexivity|].
  vm_compute. discriminate.
Qed.

(** Claim C6, as amended: the scanner's table has each key once; the
    reported windows are sorted ascending and are, up to order, the
    earliest-starting recorded occurrence of each key recorded at more than
    one position; the score is minus the number of such repeated keys when
    there is at least one, and 1 when there is none. *)
Theorem nonunique_report (o : Nonunique.t) (c : canvas) :
  let tb := Nonunique.kmers_locations o (Nonunique.window_sequence o c) in
  let e := Nonunique.evaluate o c in
  NoDup (map fst tb) /\
  Permutation (windows e)
    (map (fun en => Nonunique.first_occurrence (snd en)) (Nonunique.repeated_keys tb)) /\
  Sorted pair_le (windows e) /\
  (forall k ps, In (k, ps) (Nonunique.repeated_keys tb) ->
     In (Nonunique.first_occurrence ps) ps /\
     forall p, In p ps -> fst (Nonunique.first_occurrence ps) <= fst p) /\
  score e = match Nonunique.repeated_keys tb with
            | [] => 1%Q
            | rk => (- Qz (zlen rk))%Q
            end.
Proof.
  intros tb e. split; [apply kmers_locations_nodup|].
  split; [unfold e; rewrite nonunique_windows; apply py_sorted_perm|].
  split; [unfold e; rewrite nonunique_windows; apply py_sorted_sorted|].
  split.
  - intros k ps Hin. unfold Nonunique.repeated_keys in Hin.
    apply filter_In in Hin as [_ Hr]. unfold Nonunique.repeated in Hr.
    cbn [snd] in Hr. apply Z.ltb_lt in Hr.
    apply first_occurrence_spec. intros ->. cbn in Hr. lia.
  - unfold e, tb. rewrite nonunique_score.
    destruct (Nonunique.repeated_keys _); reflexivity.
Qed.

(** ** The codon objective: claim C8 *)

Lemma sum_usage_ok (tb : CodonObj.usage_table) (sub : dna) (is : list Z) (fs : list Q) :
  Forall2 (fun i f => dict_get tb (py_slice sub (3 * i) (3 * (i + 1))) = Ok f) is fs ->
  CodonObj.sum_usage tb sub is = Ok (qsum fs).
Proof.
  induction 1 as [|i f is fs Hf _ IH]; cbn [CodonObj.sum_usage]; [reflexivity|].
  rewrite Hf. cbn [bind]. rewrite IH. reflexivity.
Qed.

(** Counterexample to C8: [CodonOptimize] (objectives.py) with the usage
    table [{"ATG": 1}] on the window ["ATG"] (the only codon of methionine,
    so every codon is optimal) scores 1, not 0, and reports the window
    [(0, 3)]. *)
Lemma codon_optimize_counterexample :
  let o := CodonObj.mk None None 1 [(list_ascii_of_string "ATG", 1%Q)] 1 in
  let c := mk_canvas (list_ascii_of_string "ATG") in
  CodonObj.evaluate o c = Ok (mk_eval 1 [(0, 3)]) /\ ~ (1 == 0)%Q.
Proof.
  intros o c. split; [vm_compute; reflexivity | discriminate].
Qed.

(** Claim C8, as amended: both [CodonOptimize.evaluate] methods raise a
    [ValueError] when the window's length is not a multiple of 3. When it
    is, and every codon of the window is in the usage table, the
    objectives.py method scores the sum of the codons' usage frequencies
    and reports the whole window as its only window. *)
Theorem codon_optimize_evaluate :
  (forall o c,
     zlen (CodonObj.subsequence o c) mod 3 <> 0 ->
     CodonObj.evaluate o c = Err ValueError) /\
  (forall CODONS_TRANSLATIONS o c s,
     extract_sequence (CodonSpec.eval_location o c) (sequence c) = Ok s ->
     zlen s mod 3 <> 0 ->
     CodonSpec.evaluate CODONS_TRANSLATIONS o c = Err ValueError) /\
  (forall o c fs,
     let sub := CodonObj.subsequence o c in
     zlen sub mod 3 = 0 ->
     Forall2 (fun i f => dict_get (CodonObj.codon_usage_table o)
                           (py_slice sub (3 * i) (3 * (i + 1))) = Ok f)
       (py_range (zlen sub / 3)) fs ->
     CodonObj.evaluate o c = Ok (mk_eval (qsum fs) [CodonObj.window_of o c])).
Proof.
  split; [|split].
  - intros o c H. unfold CodonObj.evaluate.
    destruct (zlen (CodonObj.subsequence o c) mod 3 =? 0) eqn:E;
    [apply Z.eqb_eq in E; contradiction | reflexivity].
  - intros CT o c s Hs H. unfold CodonSpec.evaluate. rewrite Hs. cbn [bind].
    destruct (zlen s mod 3 =? 0) eqn:E;
    [apply Z.eqb_eq in E; contradiction | reflexivity].
  - intros o c fs sub H Hf. unfold CodonObj.evaluate. fold sub.
    rewrite H. cbn [Z.eqb negb]. rewrite (sum_usage_ok _ _ _ _ Hf). reflexivity.
Qed.

(** Witness of C8: windows ["ATGA"] (4 bases) for both methods, and ["ATG"]
    with the table [{"ATG": 1}]. *)
Lemma codon_optimize_evaluate_witness :
  let tb := [(list_ascii_of_string "ATG", 1%Q)] in
  let o := CodonObj.mk None None 1 tb 1 in
  let os := CodonSpec.mk None None tb 1 in
  let c4 := mk_canvas (list_ascii_of_string "ATGA") in
  let c3 := mk_canvas (list_ascii_of_string "ATG") in
  CodonObj.evaluate o c4 = Err ValueError /\
  CodonSpec.evaluate [] os c4 = Err ValueError /\
  CodonObj.evaluate o c3 = Ok (mk_eval (qsum [1%Q]) [CodonObj.window_of o c3]).
Proof.
  intros tb o os c4 c3.
  destruct codon_optimize_evaluate as [H1 [H2 H3]].
  split; [apply H1; vm_compute; discriminate|].
  split; [apply (H2 [] os c4 (list_ascii_of_string "ATGA"));
          [vm_compute; reflexivity | vm_compute; discriminate]|].
  apply H3; [vm_compute; reflexivity|].
  vm_compute. constructor; [reflexivity | constructor].
Defined.

(** ** Construction-time validation: claim C9 *)

(** Counterexample to C9: [EnforceMeltingTemperature(mini=50, maxi=70,
    target=55)] (midpoint 60, not 55) is constructed without error. *)
Lemma construction_validation_counterexample :
  (exists o, EMT.init (Some 50%Q) (Some 70%Q) (Some 55%Q) None 1 = Ok o) /\
  ~ ((1 # 2) * (50 + 70) == 55)%Q.
Proof. split; [eexists; reflexivity | vm_compute; discriminate]. Qed.

(** Claim C9, as amended: both [CodonOptimize] constructors raise a
    [ValueError] when neither a species/organism nor a codon usage table is
    given. [EnforceMeltingTemperature] never rejects a target given together
    with [mini]/[maxi]: its construction succeeds whatever their
    midpoint. *)
Theorem construction_validation :
  (forall CODON_USAGE window strand boost,
     CodonObj.init CODON_USAGE None window strand None boost = Err ValueError) /\
  (forall CODON_USAGE_TABLES loc boost,
     CodonSpec.init CODON_USAGE_TABLES None loc None boost = Err ValueError) /\
  (forall mini maxi target loc boost,
     exists o, EMT.init mini maxi (Some target) loc boost = Ok o).
Proof.
  split; [|split]; [reflexivity | reflexivity|].
  intros mini maxi target loc boost. eexists. reflexivity.
Qed.

(** * Further properties of the embedded code *)

(** ** Python helpers, continued *)

Lemma zlen_rev {A} (l : list A) : zlen (rev l) = zlen l.
Proof. unfold zlen. rewrite length_rev. reflexivity. Qed.

Lemma zlen_map {A B} (f : A -> B) (l : list A) : zlen (map f l) = zlen l.
Proof. unfold zlen. rewrite length_map. reflexivity. Qed.

Lemma py_slice_inrange {A} (l : list A) (x y : Z) :
  0 <= x <= y -> y <= zlen l ->
  py_slice l x y = firstn (Z.to_nat (y - x)) (skipn (Z.to_nat x) l).
Proof.
  intros Hxy Hy. unfold py_slice, py_index; cbv zeta.
  destruct (x <? 0) eqn:E1; [apply Z.ltb_lt in E1; lia|].
  destruct (y <? 0) eqn:E2; [apply Z.ltb_lt in E2; lia|].
  rewrite (Z.min_l x (zlen l)), (Z.min_l y (zlen l)) by lia. reflexivity.
Qed.

Lemma py_slice_map {A B} (f : A -> B) (l : list A) (a b : Z) :
  py_slice (map f l) a b = map f (py_slice l a b).
Proof.
  unfold py_slice. rewrite zlen_map, skipn_map, firstn_map. reflexivity.
Qed.

(** [l[::-1][n-y:n-x]] is [l[x:y][::-1]]. *)
Lemma py_slice_rev {A} (l : list A) (x y : Z) :
  0 <= x <= y -> y <= zlen l ->
  py_slice (rev l) (zlen l - y) (zlen l - x) = rev (py_slice l x y).
Proof.
  intros Hxy Hy. pose proof (zlen_nonneg l) as Hn.
  rewrite (py_slice_inrange l x y Hxy Hy).
  rewrite py_slice_inrange by (rewrite ?zlen_rev; lia).
  unfold zlen in *.
  replace (Z.to_nat (Z.of_nat (List.length l) - x - (Z.of_nat (List.length l) - y)))
    with (Z.to_nat y - Z.to_nat x)%nat by lia.
  replace (Z.to_nat (y - x)) with (Z.to_nat y - Z.to_nat x)%nat by lia.
  replace (Z.to_nat (Z.of_nat (List.length l) - y))
    with (List.length l - Z.to_nat y)%nat by lia.
  rewrite skipn_rev.
  replace (List.length l - (List.length l - Z.to_nat y))%nat with (Z.to_nat y) by lia.
  rewrite firstn_rev, length_firstn.
  replace (Nat.min (Z.to_nat y) (List.length l) - (Z.to_nat y - Z.to_nat x))%nat
    with (Z.to_nat x) by lia.
  rewrite skipn_firstn_comm. reflexivity.
Qed.

(** A slice of the reverse complement is the reverse complement of the
    mirrored slice. *)
Lemma py_slice_reverse_complement (s : dna) (a b : Z) :
  0 <= a <= b -> b <= zlen s ->
  py_slice (reverse_complement s) a b
  = reverse_complement (py_slice s (zlen s - b) (zlen s - a)).
Proof.
  intros Hab Hb. unfold reverse_complement.
  rewrite <- py_slice_map.
  pose proof (py_slice_rev (map complement s) (zlen s - b) (zlen s - a)) as H.
  rewrite zlen_map in H.
  replace (zlen s - (zlen s - a)) with a in H by lia.
  replace (zlen s - (zlen s - b)) with b in H by lia.
  apply H; lia.
Qed.

Lemma py_range_In (m i : Z) : In i (py_range m) <-> 0 <= i < m.
Proof.
  unfold py_range. rewrite in_map_iff. split.
  - intros [k [<- Hk]]. apply in_seq in Hk. lia.
  - intros Hi. exists (Z.to_nat i). split; [lia|]. apply in_seq. lia.
Qed.

Lemma fold_left_invariant_in {A B} (P : A -> Prop) (f : A -> B -> A) (l : list B) (a : A) :
  (forall a b, In b l -> P a -> P (f a b)) -> P a -> P (fold_left f l a).
Proof.
  revert a; induction l as [|b l IH]; intros a Hf Ha; cbn [fold_left]; [exact Ha|].
  apply IH; [intros a' b' Hb'; apply Hf; right; exact Hb' | apply Hf; [left|]; auto].
Qed.

(** ** The k-mer scanner *)

(** A property [R key position] of every recorded position. *)
Definition table_inv (R : dna -> Z * Z -> Prop) (tb : Nonunique.kmer_table) : Prop :=
  forall k ps p, In (k, ps) tb -> In p ps -> R k p.

Lemma table_append_inv (R : dna -> Z * Z -> Prop) (k : dna) (pos : Z * Z)
  (tb : Nonunique.kmer_table) :
  table_inv R tb -> R k pos -> table_inv R (Nonunique.table_append k pos tb).
Proof.
  unfold table_inv. induction tb as [|[k0 ps0] r IH]; intros Ht Hr;
  cbn [Nonunique.table_append].
  - intros k' ps' p [Heq|[]] Hp. injection Heq as <- <-.
    destruct Hp as [<-|[]]. exact Hr.
  - destruct (ascii_list_eqb k k0) eqn:E.
    + apply ascii_list_eqb_true in E; subst k0.
      intros k' ps' p [Heq|Hin] Hp.
      * injection Heq as <- <-. apply in_app_or in Hp as [Hp|[<-|[]]];
        [apply (Ht k ps0 p); [left; reflexivity | exact Hp] | exact Hr].
      * apply (Ht k' ps' p); [right; exact Hin | exact Hp].
    + intros k' ps' p [Heq|Hin] Hp.
      * apply (Ht k' ps' p); [left; exact Heq | exact Hp].
      * apply (IH (fun k1 ps1 p1 H1 => Ht k1 ps1 p1 (or_intror H1)) Hr k' ps' p Hin Hp).
Qed.

Lemma kmers_locations_inv (R : dna -> Z * Z -> Prop) (o : Nonunique.t) (s : dna) :
  let L := Nonunique.length o in
  (forall i, 0 <= i < zlen s - L -> R (py_slice s i (i + L)) (i, i + L)) ->
  (Nonunique.include_reverse_complement o = true ->
   forall i, 0 <= i < zlen s - L ->
   R (py_slice (reverse_complement s) i (i + L)) (zlen s - (i + L), zlen s - i)) ->
  table_inv R (Nonunique.kmers_locations o s).
Proof.
  intros L Hf Hr.
  unfold Nonunique.kmers_locations, Nonunique.record_forward, Nonunique.record_reverse.
  assert (H0 : table_inv R (fold_left (fun tb i =>
      Nonunique.table_append (py_slice s i (i + Nonunique.length o))
        (i, i + Nonunique.length o) tb)
      (py_range (zlen s - Nonunique.length o)) [])).
  { apply fold_left_invariant_in; [|intros k ps p []].
    intros tb i Hi Ht. apply table_append_inv; [exact Ht|].
    apply Hf. apply py_range_In, Hi. }
  destruct (Nonunique.include_reverse_complement o) eqn:Ei; [|exact H0].
  apply fold_left_invariant_in; [|exact H0].
  intros tb i Hi Ht. apply table_append_inv; [exact Ht|].
  apply Hr; [reflexivity | apply py_range_In, Hi].
Qed.

(** Every reported window is a recorded position of a key. *)
Lemma nonunique_windows_recorded (o : Nonunique.t) (c : canvas) (w : Z * Z) :
  In w (windows (Nonunique.evaluate o c)) ->
  exists k ps, In (k, ps) (Nonunique.kmers_locations o (Nonunique.window_sequence o c))
               /\ In w ps.
Proof.
  rewrite nonunique_windows. intros Hw.
  apply (Permutation_in _ (py_sorted_perm _)) in Hw.
  apply in_map_iff in Hw as [[k ps] [<- Hin]].
  unfold Nonunique.repeated_keys in Hin. apply filter_In in Hin as [Hin Hr].
  unfold Nonunique.repeated in Hr. cbn [snd] in Hr |- *. apply Z.ltb_lt in Hr.
  exists k, ps. split; [exact Hin|].
  apply first_occurrence_spec. intros ->. cbn in Hr. lia.
Qed.

Lemma py_range_small (m : Z) : m <= 1 -> py_range m = [] \/ py_range m = [0].
Proof.
  intros Hm. unfold py_range. destruct (Z.to_nat m) as [|[|k]] eqn:E;
  [left; reflexivity | right; reflexivity | lia].
Qed.

(** Every window reported by [AvoidNonuniqueKmers] / [AvoidNonuniqueSegments]
    spans exactly [length] bases and lies within [[0, len(subsequence)]],
    where the subsequence is [sequence[wstart:wend]]: the windows are
    counted from the start of the objective's window, not of the
    sequence. *)
Theorem nonunique_windows_within_subsequence (o : Nonunique.t) (c : canvas) :
  let n := zlen (Nonunique.window_sequence o c) in
  Forall (fun w => 0 <= fst w /\ snd w <= n /\ snd w - fst w = Nonunique.length o)
    (windows (Nonunique.evaluate o c)).
Proof.
  intros n. apply Forall_forall. intros w Hw.
  destruct (nonunique_windows_recorded o c w Hw) as [k [ps [Hin Hp]]].
  refine (kmers_locations_inv
            (fun _ p => 0 <= fst p /\ snd p <= n /\ snd p - fst p = Nonunique.length o)
            o (Nonunique.window_sequence o c) _ _ k ps w Hin Hp);
  cbv zeta; fold n; intros; cbn [fst snd]; lia.
Qed.

(** Every position recorded by the k-mer scanner is recorded under the
    k-mer read there, [subsequence[start:end]], or, for the positions of the
    reverse-complement pass, under the reverse complement of that k-mer. So
    a key repeats iff the same k-mer (or, with
    [include_reverse_complement], a k-mer or its reverse complement) is read
    at two recorded positions. *)
Theorem nonunique_keys_match_positions (o : Nonunique.t) (c : canvas) :
  0 <= Nonunique.length o ->
  let s := Nonunique.window_sequence o c in
  forall k ps p,
    In (k, ps) (Nonunique.kmers_locations o s) -> In p ps ->
    k = py_slice s (fst p) (snd p) \/
    (Nonunique.include_reverse_complement o = true /\
     k = reverse_complement (py_slice s (fst p) (snd p))).
Proof.
  intros HL s.
  apply kmers_locations_inv; cbv zeta.
  - intros i Hi. left. reflexivity.
  - intros Hrc i Hi. right. split; [exact Hrc|]. cbn [fst snd].
    apply py_slice_reverse_complement; lia.
Qed.

Lemma nonunique_keys_match_positions_witness :
  let o := Nonunique.mk 2 None true in
  let c := mk_canvas (list_ascii_of_string "ACGTTT") in
  0 <= Nonunique.length o /\
  (forall k ps p,
    In (k, ps) (Nonunique.kmers_locations o (Nonunique.window_sequence o c)) -> In p ps ->
    k = py_slice (Nonunique.window_sequence o c) (fst p) (snd p) \/
    (Nonunique.include_reverse_complement o = true /\
     k = reverse_complement (py_slice (Nonunique.window_sequence o c) (fst p) (snd p)))).
Proof.
  intros o c. split; [cbn; lia|].
  exact (nonunique_keys_match_positions o c ltac:(cbn; lia)).
Defined.

(** The scan loops run over [range(len(subsequence) - length)], so a
    subsequence of at most [length + 1] bases (at most [length] bases with
    [include_reverse_complement]) has at most one recorded k-mer position per
    pass: the objective passes with score 1 and no window, even when its two
    k-mers are equal. *)
Theorem nonunique_short_window_passes (o : Nonunique.t) (c : canvas) :
  zlen (Nonunique.window_sequence o c)
    <= Nonunique.length o + (if Nonunique.include_reverse_complement o then 0 else 1) ->
  Nonunique.evaluate o c = mk_eval 1 [].
Proof.
  intros Hn.
  unfold Nonunique.evaluate, Nonunique.kmers_locations, Nonunique.record_forward,
    Nonunique.record_reverse.
  set (s := Nonunique.window_sequence o c) in *.
  set (L := Nonunique.length o) in *.
  assert (Hm : zlen s - L <= 1)
    by (destruct (Nonunique.include_reverse_complement o); lia).
  destruct (py_range_small _ Hm) as [E|E]; rewrite E.
  - destruct (Nonunique.include_reverse_complement o); reflexivity.
  - assert (H0 : 0 < zlen s - L)
      by (apply (py_range_In (zlen s - L) 0); rewrite E; left; reflexivity).
    destruct (Nonunique.include_reverse_complement o); [lia | reflexivity].
Qed.

Lemma nonunique_short_window_passes_witness :
  let o := Nonunique.mk 5 None false in
  let c := mk_canvas (list_ascii_of_string "AAAAAA") in
  zlen (Nonunique.window_sequence o c)
    <= Nonunique.length o + (if Nonunique.include_reverse_complement o then 0 else 1) /\
  Nonunique.evaluate o c = mk_eval 1 [].
Proof.
  intros o c. split; [vm_compute; discriminate|].
  apply nonunique_short_window_passes. vm_compute. discriminate.
Defined.

(** ** EnforceGCContent, continued *)

Lemma qsum_Forall2 (l1 l2 : list Q) :
  Forall2 Qeq l1 l2 -> (qsum l1 == qsum l2)%Q.
Proof.
  induction 1 as [|a b l1 l2 Hab _ IH]; cbn [qsum fold_right]; [reflexivity|].
  fold (qsum l1) (qsum l2). rewrite Hab, IH. reflexivity.
Qed.



(** An [EnforceGCContent] built with a [gc_objective] [g] has
    [gc_min = gc_max = g]: each measured value [v] breaches by [|v - g|], and
    an evaluation scores minus the sum of these distances. *)
Theorem gc_objective_breach_distance (gc_min gc_max g : Q) (gc_window : option Z)
  (window : option (Z * Z)) (boost : Q) :
  let o := GC.init gc_min gc_max (Some g) gc_window window boost in
  forall gc_content c,
    Forall2 (fun b v => b == qabs (v - g))%Q
      (GC.breaches gc_content o c) (GC.measured gc_content o c) /\
    (forall e, GC.evaluate gc_content o c = Ok e ->
       score e == - qsum (map (fun v => qabs (v - g)) (GC.measured gc_content o c)))%Q.
Proof.
  intros o gc_content c.
  assert (Hb : Forall2 (fun b v => b == qabs (v - g))%Q
                 (GC.breaches gc_content o c) (GC.measured gc_content o c)).
  { unfold GC.breaches. generalize (GC.measured gc_content o c) as m.
    cbn [o GC.init GC.gc_min GC.gc_max].
    induction m as [|v m IH]; cbn [map]; constructor;
    [|exact IH]. unfold GC.breach, qmax, qabs. qcases; lra. }
  split; [exact Hb|].
  intros e. unfold GC.evaluate. destruct (GC.eval_window o c) as [wstart wend].
  destruct (GC.breaches_windows _ _ _ _); cbn [bind]; [|discriminate].
  intros H; injection H as <-. cbn [score].
  rewrite (qsum_Forall2 (GC.breaches gc_content o c)
             (map (fun v => qabs (v - g)) (GC.measured gc_content o c))).
  - reflexivity.
  - clear -Hb. induction Hb; constructor; assumption.
Qed.

(** ** AvoidBlastMatches, continued *)

Lemma blast_windows (blast_sequence : dna -> string -> Z -> Z -> Z -> Z -> list (Z * Z))
  (o : Blast.t) (c : canvas) :
  let '(wstart, wend) :=
    match Blast.window o with None => (0, zlen (sequence c)) | Some w => w end in
  windows (Blast.evaluate blast_sequence o c)
  = py_sorted
      (map (fun h => sort_pair (fst h + wstart, snd h + wstart))
         (filter (fun h => Blast.min_align_length o <=? Z.abs (snd h - fst h))
            (blast_sequence (py_slice (sequence c) wstart wend) (Blast.blast_db o)
               (Blast.word_size o) (Blast.perc_identity o) (Blast.num_alignments o)
               (Blast.num_threads o)))).
Proof.
  unfold Blast.evaluate.
  destruct (match Blast.window o with None => _ | Some w => w end) as [wstart wend].
  cbv zeta. destruct (py_sorted _); reflexivity.
Qed.

(** [AvoidBlastMatches] reports its windows sorted, each as an ordered pair
    [start <= end] spanning at least [min_align_length] bases. *)
Theorem blast_windows_ordered
  (blast_sequence : dna -> string -> Z -> Z -> Z -> Z -> list (Z * Z))
  (o : Blast.t) (c : canvas) :
  let ws := windows (Blast.evaluate blast_sequence o c) in
  Sorted pair_le ws /\
  Forall (fun w => fst w <= snd w /\ Blast.min_align_length o <= snd w - fst w) ws.
Proof.
  intros ws. pose proof (blast_windows blast_sequence o c) as Hw.
  destruct (match Blast.window o with None => _ | Some w => w end) as [wstart wend].
  unfold ws; rewrite Hw. split; [apply py_sorted_sorted|].
  apply Forall_forall. intros w Hin.
  apply (Permutation_in _ (py_sorted_perm _)) in Hin.
  apply in_map_iff in Hin as [[a b] [<- Hh]].
  apply filter_In in Hh as [_ Hl]. apply Z.leb_le in Hl. cbn [fst snd] in Hl |- *.
  unfold sort_pair; cbn [fst snd].
  destruct (b + wstart <? a + wstart) eqn:E;
  [apply Z.ltb_lt in E | apply Z.ltb_ge in E]; cbn [fst snd]; lia.
Qed.

(** ** EnforceRegionsCompatibility, continued *)

Lemma pair_eqb_true (p q : Z * Z) : RC.pair_eqb p q = true <-> p = q.
Proof.
  destruct p as [a b], q as [c d]. unfold RC.pair_eqb; cbn [fst snd].
  rewrite andb_true_iff, !Z.eqb_eq. split; [intros [-> ->]; reflexivity|].
  intros H; injection H as -> ->; split; reflexivity.
Qed.

Lemma dedup_fold_spec (l acc : list (Z * Z)) :
  NoDup acc ->
  NoDup (fold_left (fun acc x => if existsb (RC.pair_eqb x) acc then acc else acc ++ [x])
           l acc) /\
  (forall r, In r (fold_left (fun acc x =>
                     if existsb (RC.pair_eqb x) acc then acc else acc ++ [x]) l acc)
             <-> In r acc \/ In r l).
Proof.
  revert acc; induction l as [|x l IH]; intros acc Hn; cbn [fold_left].
  - split; [exact Hn|]. intros r; cbn [In]; tauto.
  - destruct (existsb (RC.pair_eqb x) acc) eqn:E.
    + destruct (IH acc Hn) as [H1 H2]. split; [exact H1|].
      intros r. rewrite H2. cbn [In].
      apply existsb_exists in E as [y [Hy Hxy]]. apply pair_eqb_true in Hxy; subst y.
      intuition (subst; auto).
    + assert (Hn' : NoDup (acc ++ [x])).
      { apply NoDup_app; [exact Hn | repeat constructor; intros [] |].
        intros y Hy [Hxy|[]]. subst y.
        assert (existsb (RC.pair_eqb x) acc = true) as E'
          by (apply existsb_exists; exists x; split; [exact Hy | apply pair_eqb_true; reflexivity]).
        congruence. }
      destruct (IH (acc ++ [x]) Hn') as [H1 H2]. split; [exact H1|].
      intros r. rewrite H2, in_app_iff. cbn [In]. intuition (subst; auto).
Qed.

Lemma insert_by_key_perm (key : Z * Z -> Z) (x : Z * Z) (l : list (Z * Z)) :
  Permutation (RC.insert_by_key key x l) (x :: l).
Proof.
  induction l as [|y r IH]; cbn [RC.insert_by_key]; [reflexivity|].
  destruct (key x <? key y); [reflexivity|]. rewrite IH. apply perm_swap.
Qed.

Lemma insert_by_key_sorted (key : Z * Z -> Z) (x : Z * Z) (l : list (Z * Z)) :
  Sorted (fun a b => key a <= key b) l ->
  Sorted (fun a b => key a <= key b) (RC.insert_by_key key x l).
Proof.
  induction l as [|y r IH]; intros Hs; cbn [RC.insert_by_key].
  - repeat constructor.
  - destruct (key x <? key y) eqn:E.
    + apply Z.ltb_lt in E. constructor; [exact Hs | constructor; lia].
    + apply Z.ltb_ge in E. inversion Hs as [|? ? Hr Hhd]; subst.
      constructor; [apply IH, Hr|].
      destruct r as [|z r]; cbn [RC.insert_by_key]; [constructor; lia|].
      inversion Hhd; subst.
      destruct (key x <? key z); constructor; lia.
Qed.

Lemma sorted_by_key_spec (key : Z * Z -> Z) (l : list (Z * Z)) :
  Permutation (RC.sorted_by_key key l) l /\
  Sorted (fun a b => key a <= key b) (RC.sorted_by_key key l).
Proof.
  unfold RC.sorted_by_key.
  assert (Hp : forall acc, Permutation
    (fold_left (fun acc x => RC.insert_by_key key x acc) l acc) (l ++ acc)).
  { induction l as [|x l IH]; intros acc; cbn [fold_left app]; [reflexivity|].
    rewrite IH, insert_by_key_perm. symmetry. apply Permutation_middle. }
  split; [rewrite Hp, app_nil_r; reflexivity|].
  apply fold_left_invariant; [intros; apply insert_by_key_sorted; assumption | constructor].
Qed.

(** [EnforceRegionsCompatibility] reports each region that belongs to an
    incompatible pair, once (no region twice), and no other region; the
    regions are listed in ascending order of their number of occurrences
    among the incompatible pairs. *)
Theorem rc_windows_distinct_by_count (o : RC.t) (c : canvas) :
  let incompatible := filter (fun p => negb (RC.compatibility_condition o (fst p) (snd p) c))
                        (RC.combinations2 (RC.regions o)) in
  let all := flat_map (fun p => [fst p; snd p]) incompatible in
  let ws := windows (RC.evaluate o c) in
  NoDup ws /\
  (forall r, In r ws <->
     exists p, In p (RC.combinations2 (RC.regions o)) /\
               RC.compatibility_condition o (fst p) (snd p) c = false /\
               (r = fst p \/ r = snd p)) /\
  Sorted (fun a b => RC.count all a <= RC.count all b) ws.
Proof.
  intros incompatible all ws.
  assert (Hws : ws = RC.sorted_by_key (RC.count all) (RC.dedup all)) by reflexivity.
  destruct (sorted_by_key_spec (RC.count all) (RC.dedup all)) as [Hp Hs].
  destruct (dedup_fold_spec all [] (NoDup_nil _)) as [Hn Hi].
  rewrite Hws. split; [|split; [|exact Hs]].
  - apply (Permutation_NoDup (Permutation_sym Hp)), Hn.
  - intros r. split.
    + intros Hr. apply (Permutation_in _ Hp) in Hr.
      unfold RC.dedup in Hr. apply Hi in Hr as [[]|Hr].
      apply in_flat_map in Hr as [p [Hp' Hr]].
      apply filter_In in Hp' as [Hc Hf]. apply negb_true_iff in Hf.
      exists p. split; [exact Hc|]. split; [exact Hf|].
      destruct Hr as [<-|[<-|[]]]; auto.
    + intros [p [Hc [Hf Hr]]]. apply (Permutation_in _ (Permutation_sym Hp)).
      unfold RC.dedup. apply Hi. right.
      apply in_flat_map. exists p. split.
      * apply filter_In. split; [exact Hc | rewrite Hf; reflexivity].
      * destruct Hr as [->| ->]; [left | right; left]; reflexivity.
Qed.

(** Localized to a window that contains no whole region, the objective
    returned by [EnforceRegionsCompatibility.localized] scores 0: only pairs
    involving an included region are checked. *)
Theorem rc_localized_no_region_passes (p : RC.t) (wstart wend : Z) :
  (forall r, In r (RC.regions p) -> ~ (wstart <= fst r <= snd r /\ snd r <= wend)) ->
  localized (RegionsCompatibility p) (wstart, wend) = Ok (LocalizedObjective p []) /\
  forall gc_content blast_sequence translate base c,
    evaluate gc_content blast_sequence translate base (LocalizedObjective p []) c
    = Ok (mk_eval 0 []).
Proof.
  intros Hr. split.
  - cbn [localized]. f_equal. f_equal.
    unfold RC.included_regions. revert Hr.
    induction (RC.regions p) as [|r rs IH]; intros Hr; [reflexivity|].
    cbn [filter].
    destruct ((wstart <=? fst r) && (fst r <=? snd r) && (snd r <=? wend)) eqn:E.
    + exfalso. apply (Hr r (or_introl eq_refl)).
      rewrite !andb_true_iff, !Z.leb_le in E. lia.
    + apply IH. intros r' Hr'. apply Hr. right. exact Hr'.
  - intros. cbn [evaluate]. unfold RC.evaluate_localized. clear Hr.
    induction (RC.regions p) as [|r rs IH]; [reflexivity|].
    cbn [flat_map app]. exact IH.
Qed.

Lemma rc_localized_no_region_passes_witness :
  let p := RC.mk [(0, 5); (10, 15)] (fun _ _ _ => false) 1 in
  (forall r, In r (RC.regions p) -> ~ (6 <= fst r <= snd r /\ snd r <= 9)) /\
  localized (RegionsCompatibility p) (6, 9) = Ok (LocalizedObjective p []).
Proof.
  intros p.
  assert (H : forall r, In r (RC.regions p) -> ~ (6 <= fst r <= snd r /\ snd r <= 9)).
  { intros r [<-|[<-|[]]]; cbn; lia. }
  split; [exact H | exact (proj1 (rc_localized_no_region_passes p 6 9 H))].
Defined.

(** ** CodonOptimize, continued *)

Lemma dict_get_err {V} (d : list (dna * V)) (k : dna) (e : py_error) :
  dict_get d k = Err e -> e = KeyError /\ ~ In k (map fst d).
Proof.
  induction d as [|[k' v] r IH]; cbn [dict_get map fst In].
  - intros H; injection H as <-. split; [reflexivity | intros []].
  - destruct (ascii_list_eqb k k') eqn:E; [discriminate|].
    intros H. destruct (IH H) as [-> Hn]. split; [reflexivity|].
    intros [Hk|Hk]; [|contradiction].
    subst k'. rewrite (proj2 (ascii_list_eqb_true k k) eq_refl) in E. discriminate.
Qed.

Lemma dict_get_missing {V} (d : list (dna * V)) (k : dna) :
  ~ In k (map fst d) -> dict_get d k = Err KeyError.
Proof.
  induction d as [|[k' v] r IH]; cbn [dict_get map fst In]; intros Hn; [reflexivity|].
  destruct (ascii_list_eqb k k') eqn:E.
  - apply ascii_list_eqb_true in E. exfalso. apply Hn. left. symmetry. exact E.
  - apply IH. intros H. apply Hn. right. exact H.
Qed.

Lemma str_dict_get_missing {V} (d : list (string * V)) (k : string) :
  ~ In k (map fst d) -> str_dict_get d k = Err KeyError.
Proof.
  induction d as [|[k' v] r IH]; cbn [str_dict_get map fst In]; intros Hn; [reflexivity|].
  destruct (String.eqb k k') eqn:E.
  - apply String.eqb_eq in E. exfalso. apply Hn. left. symmetry. exact E.
  - apply IH. intros H. apply Hn. right. exact H.
Qed.

Lemma sum_usage_key_error (tb : CodonObj.usage_table) (sub : dna) (is : list Z) :
  CodonObj.sum_usage tb sub is = Err KeyError <->
  exists i, In i is /\ ~ In (py_slice sub (3 * i) (3 * (i + 1))) (map fst tb).
Proof.
  induction is as [|i r IH]; cbn [CodonObj.sum_usage].
  - split; [discriminate | intros [i [[] _]]].
  - destruct (dict_get tb (py_slice sub (3 * i) (3 * (i + 1)))) as [f|e] eqn:E;
    cbn [bind].
    + destruct (CodonObj.sum_usage tb sub r) as [rest|e] eqn:Er; cbn [bind].
      * split; [discriminate|]. intros [j [[<-|Hj] Hn]].
        -- rewrite (dict_get_missing _ _ Hn) in E. discriminate.
        -- assert (Ok rest = Err KeyError) by (apply IH; exists j; auto).
           discriminate.
      * rewrite IH. split.
        -- intros [j [Hj Hn]]. exists j. split; [right|]; assumption.
        -- intros [j [[<-|Hj] Hn]].
           ++ rewrite (dict_get_missing _ _ Hn) in E. discriminate.
           ++ exists j; split; assumption.
    + destruct (dict_get_err _ _ _ E) as [-> Hn]. split; [|reflexivity].
      intros _. exists i. split; [left; reflexivity | exact Hn].
Qed.

Lemma sum_usage_err_key (tb : CodonObj.usage_table) (sub : dna) (is : list Z) (e : py_error) :
  CodonObj.sum_usage tb sub is = Err e -> e = KeyError.
Proof.
  induction is as [|i r IH]; cbn [CodonObj.sum_usage]; [discriminate|].
  destruct (dict_get tb _) as [f|e'] eqn:E; cbn [bind].
  - destruct (CodonObj.sum_usage tb sub r); cbn [bind]; [discriminate|].
    intros H; injection H as <-. apply IH. reflexivity.
  - intros H; injection H as <-. apply (dict_get_err _ _ _ E).
Qed.

(** [CodonOptimize.evaluate] (objectives.py) raises a KeyError exactly when
    the window's length is a multiple of 3 and one of its codons is not a
    key of the codon usage table. *)
Theorem codon_missing_codon_key_error (o : CodonObj.t) (c : canvas) :
  let sub := CodonObj.subsequence o c in
  CodonObj.evaluate o c = Err KeyError <->
  zlen sub mod 3 = 0 /\
  exists i, 0 <= i < zlen sub / 3 /\
            ~ In (py_slice sub (3 * i) (3 * (i + 1))) (map fst (CodonObj.codon_usage_table o)).
Proof.
  intros sub. unfold CodonObj.evaluate. fold sub.
  destruct (zlen sub mod 3 =? 0) eqn:E; cbn [negb].
  - apply Z.eqb_eq in E.
    destruct (CodonObj.sum_usage (CodonObj.codon_usage_table o) sub
                (py_range (zlen sub / 3))) as [q|e] eqn:Es; cbn [bind].
    + split; [discriminate|]. intros [_ [i [Hi Hn]]].
      assert (Ok q = Err KeyError); [|discriminate].
      rewrite <- Es. apply sum_usage_key_error. exists i.
      split; [apply py_range_In, Hi | exact Hn].
    + assert (e = KeyError) as -> by (eapply sum_usage_err_key; exact Es).
      apply sum_usage_key_error in Es as [i [Hi Hn]].
      split; [|reflexivity]. intros _. split; [exact E|]. exists i.
      split; [apply py_range_In, Hi | exact Hn].
  - apply Z.eqb_neq in E. split; [discriminate | intros [H _]; contradiction].
Qed.

(** Both [CodonOptimize] constructors take the usage table from the species
    (organism) name whenever a name is given: a [codon_usage_table] passed
    along with it is ignored, and a name missing from the tables raises a
    KeyError. *)
Theorem codon_name_overrides_table :
  (forall CODON_USAGE organism window strand t1 t2 boost,
     CodonObj.init CODON_USAGE (Some organism) window strand t1 boost
     = CodonObj.init CODON_USAGE (Some organism) window strand t2 boost /\
     (~ In organism (map fst CODON_USAGE) ->
      CodonObj.init CODON_USAGE (Some organism) window strand t1 boost = Err KeyError)) /\
  (forall CODON_USAGE_TABLES species loc t1 t2 boost,
     CodonSpec.init CODON_USAGE_TABLES (Some species) loc t1 boost
     = CodonSpec.init CODON_USAGE_TABLES (Some species) loc t2 boost /\
     (~ In species (map fst CODON_USAGE_TABLES) ->
      CodonSpec.init CODON_USAGE_TABLES (Some species) loc t1 boost = Err KeyError)).
Proof.
  split; intros tables name w1 w2 t1 t2 boost || intros tables name w1 t1 t2 boost;
  (split; [reflexivity|]);
  intros Hn; unfold CodonObj.init, CodonSpec.init;
  rewrite (str_dict_get_missing _ _ Hn); reflexivity.
Qed.

(** ** AvoidIDTHairpins *)

Lemma py_index_range (n i : Z) : 0 <= n -> 0 <= py_index n i <= n.
Proof. intros Hn. unfold py_index. destruct (i <? 0) eqn:E; lia. Qed.

Lemma py_index_idem (n i : Z) : 0 <= n -> py_index n (py_index n i) = py_index n i.
Proof.
  intros Hn. pose proof (py_index_range n i Hn) as Hr.
  unfold py_index at 1. destruct (py_index n i <? 0) eqn:E; [apply Z.ltb_lt in E; lia|].
  apply Z.min_l. lia.
Qed.

(** Slicing normalises its bounds first. *)
Lemma py_slice_idx {A} (l : list A) (a b : Z) :
  py_slice l a b = py_slice l (py_index (zlen l) a) (py_index (zlen l) b).
Proof.
  pose proof (zlen_nonneg l) as Hn. unfold py_slice at 2. cbv zeta.
  rewrite !py_index_idem by exact Hn. reflexivity.
Qed.

Lemma py_slice_empty {A} (l : list A) (a b : Z) :
  py_index (zlen l) b <= py_index (zlen l) a -> py_slice l a b = [].
Proof.
  intros H. unfold py_slice; cbv zeta.
  replace (Z.to_nat (py_index (zlen l) b - py_index (zlen l) a)) with 0%nat by lia.
  reflexivity.
Qed.

Lemma flat_map_ext_In {A B} (f g : A -> list B) (l : list A) :
  (forall x, In x l -> f x = g x) -> flat_map f l = flat_map g l.
Proof.
  induction l as [|x l IH]; intros H; cbn [flat_map]; [reflexivity|].
  rewrite (H x (or_introl eq_refl)), IH; [reflexivity|].
  intros y Hy. apply H. right. exact Hy.
Qed.

(** The [rest] searched at step [i]: [reverse[-(i + hairpin_window):-(i +
    stem_size)]] is the reverse complement of
    [sequence[i + stem_size:i + hairpin_window]]. *)
Lemma hairpin_rest (s : dna) (stem hw i : Z) :
  0 < stem -> 0 < hw -> 0 <= i < zlen s - hw ->
  py_slice (reverse_complement s) (- (i + hw)) (- (i + stem))
  = reverse_complement (py_slice s (i + stem) (i + hw)).
Proof.
  intros Hs Hw Hi.
  assert (Hl : zlen (reverse_complement s) = zlen s)
    by (unfold reverse_complement; rewrite zlen_rev, zlen_map; reflexivity).
  assert (Ea : py_index (zlen s) (- (i + hw)) = zlen s - (i + hw))
    by (unfold py_index; destruct (- (i + hw) <? 0) eqn:E;
        [apply Z.ltb_lt in E | apply Z.ltb_ge in E]; lia).
  assert (Eb : py_index (zlen s) (- (i + stem)) = Z.max 0 (zlen s - (i + stem)))
    by (unfold py_index; destruct (- (i + stem) <? 0) eqn:E;
        [apply Z.ltb_lt in E | apply Z.ltb_ge in E]; lia).
  destruct (Z.le_gt_cases stem hw) as [Hsw|Hsw].
  - rewrite py_slice_idx, Hl, Ea, Eb, Z.max_r by lia.
    rewrite py_slice_reverse_complement by lia.
    f_equal. f_equal; lia.
  - rewrite py_slice_empty by (rewrite Hl, Ea, Eb; lia).
    rewrite py_slice_empty; [reflexivity|].
    unfold py_index. destruct (i + hw <? 0) eqn:E1; [apply Z.ltb_lt in E1; lia|].
    destruct (i + stem <? 0) eqn:E2; [apply Z.ltb_lt in E2; lia|]. lia.
Qed.

(** [AvoidIDTHairpins] (stem and hairpin window sizes positive) reports a
    window [(i, i + hairpin_window)] exactly for the starts [i] with
    [0 <= i < len(sequence) - hairpin_window] at which the stem
    [sequence[i:i + stem_size]] occurs in the reverse complement of
    [sequence[i + stem_size:i + hairpin_window]]. Every window ends strictly
    before the end of the sequence. *)
Theorem hairpins_windows (o : Hairpins.t) (c : canvas) :
  0 < Hairpins.stem_size o -> 0 < Hairpins.hairpin_window o ->
  let s := sequence c in
  let stem := Hairpins.stem_size o in
  let hw := Hairpins.hairpin_window o in
  windows (Hairpins.evaluate o c)
  = flat_map (fun i =>
      if py_contains (py_slice s i (i + stem))
           (reverse_complement (py_slice s (i + stem) (i + hw)))
      then [(i, i + hw)] else [])
      (py_range (zlen s - hw)) /\
  Forall (fun w => 0 <= fst w /\ snd w - fst w = hw /\ snd w < zlen s)
    (windows (Hairpins.evaluate o c)).
Proof.
  intros Hs Hw s stem hw. subst s stem hw.
  assert (Heq : windows (Hairpins.evaluate o c)
    = flat_map (fun i =>
      if py_contains (py_slice (sequence c) i (i + Hairpins.stem_size o))
           (reverse_complement (py_slice (sequence c) (i + Hairpins.stem_size o)
                                  (i + Hairpins.hairpin_window o)))
      then [(i, i + Hairpins.hairpin_window o)] else [])
      (py_range (zlen (sequence c) - Hairpins.hairpin_window o))).
  { cbn [Hairpins.evaluate windows]. apply flat_map_ext_In.
    intros i Hi. apply py_range_In in Hi. unfold Hairpins.step.
    rewrite hairpin_rest by lia. reflexivity. }
  split; [exact Heq|]. rewrite Heq.
  apply Forall_forall. intros w Hin. apply in_flat_map in Hin as [i [Hi Hw']].
  apply py_range_In in Hi.
  destruct (py_contains _ _); [destruct Hw' as [<-|[]] | destruct Hw'].
  cbn [fst snd]. lia.
Qed.

Lemma hairpins_windows_witness :
  let o := Hairpins.mk 2 4 1 in
  let c := mk_canvas (list_ascii_of_string "ACGTAAAA") in
  0 < Hairpins.stem_size o /\ 0 < Hairpins.hairpin_window o /\
  windows (Hairpins.evaluate o c) = [(0, 4)].
Proof.
  intros o c. split; [reflexivity|]. split; [reflexivity|].
  rewrite (proj1 (hairpins_windows o c eq_refl eq_refl)). vm_compute. reflexivity.
Defined.

(** ** AvoidPattern and EnforcePattern *)


(** [AvoidPattern] reports the pattern's matches as its windows and scores
    minus their number: it passes (score 0) exactly when it reports no
    window. [EnforcePattern] scores [-|matches - occurences|]: never
    positive, and 0 exactly when the pattern is found [occurences] times in
    the window. *)
Theorem pattern_objectives_score (ao : AvoidPattern.t) (eo : Pattern.t) (c : canvas) :
  (windows (AvoidPattern.evaluate ao c)
   = AvoidPattern.find_matches ao (sequence c) (AvoidPattern.window ao) /\
   (score (AvoidPattern.evaluate ao c) <= 0)%Q /\
   ((score (AvoidPattern.evaluate ao c) == 0)%Q <-> windows (AvoidPattern.evaluate ao c) = [])) /\
  (let w := match Pattern.window eo with None => (0, zlen (sequence c)) | Some w => w end in
   (score (Pattern.evaluate eo c) <= 0)%Q /\
   ((score (Pattern.evaluate eo c) == 0)%Q <->
    zlen (Pattern.find_matches eo (sequence c) w) = Pattern.occurences eo)).
Proof.
  split.
  - cbn [AvoidPattern.evaluate score windows].
    split; [reflexivity|]. split; [apply neg_Qz_le_0, zlen_nonneg|].
    rewrite neg_Qz_eq_0. destruct (AvoidPattern.find_matches _ _ _) as [|x r].
    + split; reflexivity.
    + unfold zlen. cbn [List.length]. split; [lia | discriminate].
  - intros w. cbn [Pattern.evaluate score]. fold w.
    rewrite neg_Qz_le_0, neg_Qz_eq_0. lia.
Qed.

(** ** SequenceLengthBounds *)

(** [SequenceLengthBounds] scores 0 when [min_length <= len(sequence)] and,
    if [max_length] is not None, [len(sequence) <= max_length]; otherwise
    it scores -1. It reports no window. *)
Theorem sequence_length_bounds_score (o : SequenceLengthBounds.t) (c : canvas) :
  let L := zlen (sequence c) in
  let within := SequenceLengthBounds.min_length o <= L /\
                match SequenceLengthBounds.max_length o with
                | None => True
                | Some maxi => L <= maxi
                end in
  (within -> score (SequenceLengthBounds.evaluate o c) = 0%Q) /\
  (~ within -> score (SequenceLengthBounds.evaluate o c) = (-1)%Q) /\
  windows (SequenceLengthBounds.evaluate o c) = [].
Proof.
  intros L within. subst within.
  cbn [SequenceLengthBounds.evaluate score windows]. fold L.
  split; [|split; [|reflexivity]];
  destruct (SequenceLengthBounds.max_length o) as [m|];
  destruct (SequenceLengthBounds.min_length o <=? L) eqn:E1;
  try destruct (L <=? m) eqn:E2; cbn [andb Z.b2z];
  rewrite ?Z.leb_le, ?Z.leb_gt in *; try reflexivity; try lia; tauto.
Qed.

(** ** MinimizeDifferences *)

(** [MinimizeDifferences.evaluate] negates the number of differences twice
    ([diffs = -sequences_differences(...)], then [score=-diffs]): it scores
    [+D], where [D] is what [sequences_differences] returns for the window,
    and reports the window. On two canvases, the one with more differences
    from the reference scores higher. *)
Theorem minimize_differences_score (sequences_differences : dna -> option dna -> Z)
  (o : MinimizeDifferences.t) :
  let D := fun c => let '(start, end_) := MinimizeDifferences.eval_window o c in
                    sequences_differences (py_slice (sequence c) start end_)
                      (MinimizeDifferences.reference_sequence o) in
  (forall c, score (MinimizeDifferences.evaluate sequences_differences o c) = Qz (D c) /\
             windows (MinimizeDifferences.evaluate sequences_differences o c)
             = [MinimizeDifferences.eval_window o c]) /\
  (forall c1 c2, D c1 < D c2 ->
     (score (MinimizeDifferences.evaluate sequences_differences o c1)
      < score (MinimizeDifferences.evaluate sequences_differences o c2))%Q).
Proof.
  intros D.
  assert (Hs : forall c, score (MinimizeDifferences.evaluate sequences_differences o c)
                         = Qz (D c)).
  { intros c. unfold MinimizeDifferences.evaluate, D.
    destruct (MinimizeDifferences.eval_window o c) as [start end_].
    cbn [score]. rewrite Z.opp_involutive. reflexivity. }
  split.
  - intros c. split; [apply Hs|]. unfold MinimizeDifferences.evaluate.
    destruct (MinimizeDifferences.eval_window o c). reflexivity.
  - intros c1 c2 H. rewrite !Hs. unfold Qz. rewrite <- Zlt_Qlt. exact H.
Qed.

(** ** DoNotModify *)

Lemma py_slice_nonneg {A} (l : list A) (a b : Z) :
  0 <= a <= b -> py_slice l a b = firstn (Z.to_nat (b - a)) (skipn (Z.to_nat a) l).
Proof.
  intros Hab. pose proof (zlen_nonneg l) as Hn.
  unfold py_slice, py_index; cbv zeta.
  destruct (a <? 0) eqn:E1; [apply Z.ltb_lt in E1; lia|].
  destruct (b <? 0) eqn:E2; [apply Z.ltb_lt in E2; lia|].
  destruct (Z.le_gt_cases a (zlen l)) as [Ha|Ha].
  - rewrite (Z.min_l a) by exact Ha.
    destruct (Z.le_gt_cases b (zlen l)) as [Hb|Hb].
    + rewrite Z.min_l by exact Hb. reflexivity.
    + rewrite Z.min_r by lia.
      rewrite (firstn_all2 (n := Z.to_nat (zlen l - a))),
              (firstn_all2 (n := Z.to_nat (b - a))); [reflexivity| |];
      rewrite length_skipn; unfold zlen in *; lia.
  - rewrite !Z.min_r by lia. rewrite (skipn_all2 (n := Z.to_nat a)) by (unfold zlen in *; lia).
    rewrite skipn_all2 by (unfold zlen in *; lia). rewrite !firstn_nil. reflexivity.
Qed.

(** A slice of a slice. *)
Lemma py_slice_sub {A} (l : list A) (a b a' b' : Z) :
  0 <= a <= a' -> a' <= b' -> b' <= b ->
  py_slice l a' b' = firstn (Z.to_nat (b' - a')) (skipn (Z.to_nat (a' - a)) (py_slice l a b)).
Proof.
  intros H1 H2 H3. rewrite !py_slice_nonneg by lia.
  rewrite skipn_firstn_comm, firstn_firstn, skipn_skipn.
  replace (Z.to_nat (a' - a) + Z.to_nat a)%nat with (Z.to_nat a') by lia.
  f_equal. lia.
Qed.

Lemma windows_overlap_inside (sw w nw : Z * Z) :
  windows_overlap sw w = Some nw -> fst sw <= fst nw < snd nw /\ snd nw <= snd sw.
Proof.
  unfold windows_overlap. destruct (Z.max _ _ <? Z.min _ _) eqn:E; [|discriminate].
  intros H; injection H as <-. apply Z.ltb_lt in E. cbn [fst snd]. lia.
Qed.

(** [DoNotModify] with a window whose start is not negative: if the
    sequence is unchanged on the window (score 1), then [localize] to any
    window either gives a [VoidObjective] or a [DoNotModify] on the overlap
    that scores 1 as well. *)
Theorem do_not_modify_localize_window_keeps_pass (o : DoNotModify.t) (sw : Z * Z) :
  DoNotModify.window o = Some sw -> 0 <= fst sw ->
  forall (w : Z * Z) (c : DoNotModify.problem),
    DoNotModify.evaluate o c = DoNotModify.Scored (mk_eval 1 []) ->
    DoNotModify.localize o w = DoNotModify.Void o \/
    exists o', DoNotModify.localize o w = DoNotModify.Local o' /\
               DoNotModify.evaluate o' c = DoNotModify.Scored (mk_eval 1 []).
Proof.
  intros Hw H0 w c He. unfold DoNotModify.localize. rewrite Hw.
  destruct (windows_overlap sw w) as [[s e]|] eqn:Eo; [right|left; reflexivity].
  eexists; split; [reflexivity|].
  apply windows_overlap_inside in Eo. destruct sw as [a b]; cbn [fst snd] in *.
  unfold DoNotModify.evaluate in He |- *. rewrite Hw in He. cbn [DoNotModify.window].
  destruct (ascii_list_eqb (py_slice (DoNotModify.sequence c) a b)
              (py_slice (DoNotModify.original_sequence c) a b)) eqn:E;
  [|injection He as He; discriminate].
  apply ascii_list_eqb_true in E.
  rewrite (py_slice_sub (DoNotModify.sequence c) a b s e),
          (py_slice_sub (DoNotModify.original_sequence c) a b s e), E by lia.
  rewrite (proj2 (ascii_list_eqb_true _ _) eq_refl). reflexivity.
Qed.

Lemma do_not_modify_localize_window_keeps_pass_witness :
  let o := DoNotModify.init (Some (2, 6)) [] 1 in
  let c := DoNotModify.mk_problem (list_ascii_of_string "AAACCCGGG")
                                  (list_ascii_of_string "TAACCCGGT") in
  DoNotModify.evaluate o c = DoNotModify.Scored (mk_eval 1 []) /\
  (DoNotModify.localize o (4, 9) = DoNotModify.Void o \/
   exists o', DoNotModify.localize o (4, 9) = DoNotModify.Local o' /\
              DoNotModify.evaluate o' c = DoNotModify.Scored (mk_eval 1 [])).
Proof.
  intros o c.
  assert (He : DoNotModify.evaluate o c = DoNotModify.Scored (mk_eval 1 []))
    by (vm_compute; reflexivity).
  split; [exact He|].
  exact (do_not_modify_localize_window_keeps_pass o (2, 6) eq_refl
           ltac:(cbn; lia) (4, 9) c He).
Defined.

Definition same_at (a b : dna) (i : Z) : Prop :=
  exists x, DoNotModify.np_get a i = Some x /\ DoNotModify.np_get b i = Some x.

Lemma np_take_same (a b : dna) (l : list Z) :
  Forall (same_at a b) l ->
  exists xs, DoNotModify.np_take a l = Some xs /\ DoNotModify.np_take b l = Some xs /\
             List.length xs = List.length l.
Proof.
  induction 1 as [|i l [x [Ha Hb]] _ [xs [H1 [H2 H3]]]].
  - exists []. repeat split.
  - exists (x :: xs). cbn [DoNotModify.np_take]. rewrite Ha, Hb, H1, H2.
    repeat split. cbn. rewrite H3. reflexivity.
Qed.

Lemma np_take_pass (a b : dna) (l : list Z) (xs ys : list ascii) :
  DoNotModify.np_take a l = Some xs -> DoNotModify.np_take b l = Some ys ->
  forallb (fun p => Ascii.eqb (fst p) (snd p)) (combine xs ys) = true ->
  Forall (same_at a b) l.
Proof.
  revert xs ys; induction l as [|i l IH]; intros xs ys Ha Hb Hf; [constructor|].
  cbn [DoNotModify.np_take] in Ha, Hb.
  destruct (DoNotModify.np_get a i) as [x|] eqn:Ea; [|discriminate].
  destruct (DoNotModify.np_take a l) as [xs'|] eqn:Ea'; [|discriminate].
  destruct (DoNotModify.np_get b i) as [y|] eqn:Eb; [|discriminate].
  destruct (DoNotModify.np_take b l) as [ys'|] eqn:Eb'; [|discriminate].
  injection Ha as <-. injection Hb as <-. cbn [combine forallb fst snd] in Hf.
  apply andb_true_iff in Hf as [Hxy Hf]. apply Ascii.eqb_eq in Hxy. subst y.
  constructor; [exists x; split; assumption|]. exact (IH xs' ys' eq_refl eq_refl Hf).
Qed.

Lemma forallb_combine_self (xs : list ascii) :
  forallb (fun p => Ascii.eqb (fst p) (snd p)) (combine xs xs) = true.
Proof.
  induction xs as [|x xs IH]; [reflexivity|]. cbn [combine forallb fst snd].
  rewrite Ascii.eqb_refl, IH. reflexivity.
Qed.

(** [DoNotModify] built with a list of indices and no window: [localize]
    to [(start, end)] keeps the indices [i] with [start <= i <= end], [end]
    included. Built with [indices=[]], it holds a float array, and both it
    and its localized copy raise IndexError on every problem. Built with
    some index, a localized copy that keeps no index raises ValueError
    ([min] of an empty array) on every problem; and if the original scores 1
    on a problem and some index is kept, the localized copy scores 1 too. *)
Theorem do_not_modify_localize_indices (inds : list Z) (boost : Q) :
  let o := DoNotModify.init None inds boost in
  forall start end_,
  exists o', DoNotModify.localize o (start, end_) = DoNotModify.Local o' /\
    DoNotModify.window o' = None /\
    (forall i, In i (DoNotModify.elems (DoNotModify.indices o')) <->
               In i inds /\ start <= i <= end_) /\
    (inds = [] -> forall c,
       DoNotModify.evaluate o c = DoNotModify.RaisedIndexError /\
       DoNotModify.evaluate o' c = DoNotModify.RaisedIndexError) /\
    (inds <> [] -> DoNotModify.elems (DoNotModify.indices o') = [] ->
     forall c, DoNotModify.evaluate o' c = DoNotModify.Raised ValueError) /\
    (DoNotModify.elems (DoNotModify.indices o') <> [] ->
     forall c, DoNotModify.evaluate o c = DoNotModify.Scored (mk_eval 1 []) ->
               DoNotModify.evaluate o' c = DoNotModify.Scored (mk_eval 1 [])).
Proof.
  intros o start end_. unfold o, DoNotModify.localize, DoNotModify.init.
  cbn [DoNotModify.window DoNotModify.indices].
  eexists; split; [reflexivity|]. cbn [DoNotModify.window DoNotModify.indices DoNotModify.elems].
  split; [reflexivity|]. split.
  { intros i. unfold DoNotModify.np_array. cbn [DoNotModify.elems].
    rewrite filter_In, andb_true_iff, !Z.leb_le. tauto. }
  split; [|split].
  - intros -> c. split; reflexivity.
  - intros Hne Hnil c. unfold DoNotModify.evaluate.
    cbn [DoNotModify.window DoNotModify.indices DoNotModify.elems DoNotModify.float_dtype].
    unfold DoNotModify.np_array in *. cbn [DoNotModify.elems DoNotModify.float_dtype] in *.
    destruct inds as [|i0 inds0]; [contradiction|]. rewrite Hnil. reflexivity.
  - unfold DoNotModify.np_array. cbn [DoNotModify.elems DoNotModify.float_dtype].
    intros Hne c He.
    destruct inds as [|i0 inds0]; [contradiction|].
    set (l := i0 :: inds0) in *.
    unfold DoNotModify.evaluate in He |- *.
    cbn [DoNotModify.window DoNotModify.indices DoNotModify.elems DoNotModify.float_dtype] in He |- *.
    destruct (DoNotModify.np_take (DoNotModify.sequence c) l)
      as [xs|] eqn:E1; [|discriminate].
    destruct (DoNotModify.np_take (DoNotModify.original_sequence c) l)
      as [ys|] eqn:E2; [|discriminate].
    unfold DoNotModify.all_equal_min in He.
    destruct (combine xs ys) as [|p ps] eqn:Ec; [discriminate|].
    destruct (forallb _ (p :: ps)) eqn:Ef; [|injection He as He; discriminate].
    rewrite <- Ec in Ef.
    pose proof (np_take_pass _ _ _ _ _ E1 E2 Ef) as Hall.
    set (kept := filter (fun i => (start <=? i) && (i <=? end_)) l) in *.
    assert (Hk : Forall (same_at (DoNotModify.sequence c) (DoNotModify.original_sequence c)) kept).
    { apply Forall_forall. intros i Hi. apply filter_In in Hi as [Hi _].
      rewrite Forall_forall in Hall. apply Hall, Hi. }
    destruct (np_take_same _ _ _ Hk) as [zs [H1 [H2 H3]]].
    rewrite H1, H2. unfold DoNotModify.all_equal_min.
    destruct zs as [|z zs]; [destruct kept; [contradiction | discriminate]|].
    pose proof (forallb_combine_self (z :: zs)) as Hs.
    cbn [combine] in Hs |- *. rewrite Hs. reflexivity.
Qed.

Lemma do_not_modify_localize_indices_witness :
  let c := DoNotModify.mk_problem (list_ascii_of_string "ACGTACGTA")
                                  (list_ascii_of_string "ACGTACGTA") in
  let o := DoNotModify.init None [1; 4; 7] 1 in
  let o0 := DoNotModify.init None [] 1 in
  let o1 := DoNotModify.mk None (DoNotModify.mk_index_array [] false) 1 in
  let o2 := DoNotModify.mk None (DoNotModify.mk_index_array [1; 4] false) 1 in
  DoNotModify.evaluate o0 c = DoNotModify.RaisedIndexError /\
  DoNotModify.localize o (2, 3) = DoNotModify.Local o1 /\
  DoNotModify.evaluate o1 c = DoNotModify.Raised ValueError /\
  DoNotModify.localize o (0, 4) = DoNotModify.Local o2 /\
  DoNotModify.evaluate o2 c = DoNotModify.Scored (mk_eval 1 []).
Proof.
  intros c o o0 o1 o2.
  destruct (do_not_modify_localize_indices [] 1 0 4) as [o0' [_ [_ [_ [H0 _]]]]].
  destruct (do_not_modify_localize_indices [1; 4; 7] 1 2 3) as [o1' [E1 [_ [_ [_ [Hv _]]]]]].
  destruct (do_not_modify_localize_indices [1; 4; 7] 1 0 4) as [o2' [E2 [_ [_ [_ [_ Hp]]]]]].
  assert (Ho1 : o1' = o1) by (vm_compute in E1; injection E1 as <-; reflexivity).
  assert (Ho2 : o2' = o2) by (vm_compute in E2; injection E2 as <-; reflexivity).
  rewrite Ho1 in E1, Hv. rewrite Ho2 in E2, Hp.
  split; [exact (proj1 (H0 eq_refl c))|].
  split; [exact E1|].
  split; [exact (Hv ltac:(discriminate) eq_refl c)|].
  split; [exact E2|].
  apply Hp; [discriminate | vm_compute; reflexivity].
Defined.
